(** * elprep: SAM filters (sam/simple-filters.go)

    A shallow embedding of the header/alignment filters of the [sam]
    package.  Go maps are reference values: the string maps held by the
    header slices [SQ], [RG] and [PG] live in a heap and the slices hold
    references to them, so that in-place updates ([RenameChromosomes],
    [AddPGLine]) are visible through every alias.  A reference that is
    not allocated in the heap plays the role of Go's nil map: reading
    through it yields the zero value, writing through it panics. *)

From Stdlib Require Import ZArith Ascii String Sorted Lia.
From stdpp Require Import gmap strings list fin_maps sorting.

Open Scope string_scope.
Open Scope list_scope.
Open Scope Z_scope.

(** ** Data model *)

(** [utils.StringMap] is [map[string]string]. *)
Abbreviation StringMap := (gmap string string).

(** References to heap-allocated string maps. *)
Abbreviation loc := nat.
Abbreviation Heap := (gmap nat (gmap string string)).

(** [m[k]] on a Go map: the zero value (the empty string) when [k] is
    absent. *)
Definition index (m : StringMap) (k : string) : string :=
  default "" (m !! k).

(** [entry[k]] where [entry] is a reference; a nil map reads as empty. *)
Definition entryGet (h : Heap) (entry : loc) (k : string) : string :=
  match h !! entry with
  | Some m => index m k
  | None => ""
  end.

(** [v, found := entry[k]]. *)
Definition entryLookup (h : Heap) (entry : loc) (k : string) : option string :=
  match h !! entry with
  | Some m => m !! k
  | None => None
  end.

(** [entry[k] = v]; assignment to an entry of a nil map panics. *)
Definition entrySet (h : Heap) (entry : loc) (k v : string) : option Heap :=
  match h !! entry with
  | Some m => Some (<[entry := <[k := v]> m]> h)
  | None => None
  end.

Record Header := mkHeader {
  HD : gmap string string;
  SQ : list nat;
  RG : list nat;
  PG : list nat;
  UserRecords : gmap string (list nat)
}.

(** The state a header phase runs in: the heap of string maps and the
    header reached through the [*Header] pointer. *)
Record World := mkWorld {
  heap : gmap nat (gmap string string);
  header : Header
}.

Definition withHD (hdr : Header) (hd : gmap string string) : Header :=
  mkHeader hd (SQ hdr) (RG hdr) (PG hdr) (UserRecords hdr).
Definition withSQ (hdr : Header) (sq : list nat) : Header :=
  mkHeader (HD hdr) sq (RG hdr) (PG hdr) (UserRecords hdr).
Definition withPG (hdr : Header) (pg : list nat) : Header :=
  mkHeader (HD hdr) (SQ hdr) (RG hdr) pg (UserRecords hdr).
Definition withUserRecords (hdr : Header) (ur : gmap string (list nat)) : Header :=
  mkHeader (HD hdr) (SQ hdr) (RG hdr) (PG hdr) ur.

(** Values of optional fields ([interface{}] in the source): the
    dynamic types the SAM format gives to a tag. *)
Inductive TagValue :=
| VChar (c : Z)
| VInt32 (i : Z)
| VFloat32 (bits : Z)
| VString (s : string)
| VByteArray (bs : list Z).

(** [utils.SmallMap]: a short association list from interned symbols
    to values, searched from the front. *)
Abbreviation SmallMap := (list (string * TagValue)).

(** Modelled from the spec: [SmallMap.Get] is declared in the [utils]
    package; it returns the value bound to the key and whether the key
    is present. *)
Fixpoint SmallMap_Get (m : SmallMap) (key : string) : option TagValue :=
  match m with
  | [] => None
  | (k, v) :: rest => if String.eqb k key then Some v else SmallMap_Get rest key
  end.

(** Modelled from the spec: [SmallMap.Set] is declared in the [utils]
    package; it rebinds the key when present and adds it otherwise. *)
Fixpoint SmallMap_Set (m : SmallMap) (key : string) (v : TagValue) : SmallMap :=
  match m with
  | [] => [(key, v)]
  | (k, v0) :: rest =>
      if String.eqb k key then (k, v) :: rest
      else (k, v0) :: SmallMap_Set rest key v
  end.

(** Modelled from the spec: the [Alignment] struct is declared outside
    the listed sources; these are the fields the filters touch.  [FLAG]
    is a 16-bit unsigned and [POS] and [REFID] are 32-bit signed
    integers. *)
Record Alignment := mkAlignment {
  FLAG : Z;
  POS : Z;
  RNAME : string;
  RNEXT : string;
  CIGAR : string;
  TAGS : list (string * TagValue);
  REFID : Z
}.

Definition withRNAME (aln : Alignment) (s : string) : Alignment :=
  mkAlignment (FLAG aln) (POS aln) s (RNEXT aln) (CIGAR aln) (TAGS aln) (REFID aln).
Definition withRNEXT (aln : Alignment) (s : string) : Alignment :=
  mkAlignment (FLAG aln) (POS aln) (RNAME aln) s (CIGAR aln) (TAGS aln) (REFID aln).
Definition withTAGS (aln : Alignment) (t : list (string * TagValue)) : Alignment :=
  mkAlignment (FLAG aln) (POS aln) (RNAME aln) (RNEXT aln) (CIGAR aln) t (REFID aln).

(** Modelled from the spec: [Alignment.SetREFID] is declared outside the
    listed sources; it stores the transient reference index. *)
Definition SetREFID (aln : Alignment) (value : Z) : Alignment :=
  mkAlignment (FLAG aln) (POS aln) (RNAME aln) (RNEXT aln) (CIGAR aln) (TAGS aln) value.

(** Modelled from the spec: [Alignment.SetRG] is declared outside the
    listed sources; it stamps the read-group identifier on the record
    as its RG optional field. *)
Definition SetRG (aln : Alignment) (id : string) : Alignment :=
  withTAGS aln (SmallMap_Set (TAGS aln) "RG" (VString id)).

(** Modelled from the spec: the FLAG bit masks are constants declared
    outside the listed sources; the values are those of the SAM
    format. *)
Definition Unmapped : Z := 0x4.
Definition Duplicate : Z := 0x400.

(** Modelled from the spec: [utils.Find] is declared in the [utils]
    package; it returns the index of the first entry that satisfies the
    predicate, or -1. *)
Fixpoint FindFrom (dict : list nat) (predicate : nat -> bool) (i : Z) : Z :=
  match dict with
  | [] => -1
  | entry :: rest => if predicate entry then i else FindFrom rest predicate (i + 1)
  end.

Definition Find (dict : list nat) (predicate : nat -> bool) : Z :=
  FindFrom dict predicate 0.

(** Modelled from the spec: [Header.SetHD_SO] is declared outside the
    listed sources; it sets the sort-order tag of the HD record. *)
Definition SetHD_SO (hd : gmap string string) (value : string) : gmap string string :=
  <["SO" := value]> hd.

(** ** Closures

    An [AlignmentFilter] is a Go closure: a code pointer together with
    the variables it captured during the header phase.  Each
    constructor is one of the function literals of the source with its
    captured variables as arguments. *)
Inductive AlignmentFilter :=
| ReplaceReferenceSequenceDictionary_closure (dictTable : gmap string bool)
| FilterUnmappedReads_closure
| FilterUnmappedReadsStrict_closure
| FilterNonExactMappingReads_closure
| FilterNonExactMappingReadsStrict_closure
| FilterDuplicateReads_closure
| FilterOptionalReads_closure
| AddOrReplaceReadGroup_closure (id : string)
| RenameChromosomes_closure
| AddREFID_closure (dictTable : gmap string Z).

(** A [Filter] runs once on the header; it may panic ([None]) and may
    return no alignment filter (Go's nil). *)
Abbreviation Filter := (World -> option (World * option AlignmentFilter)).

(** ** ReplaceReferenceSequenceDictionary *)

(** The body of the sort-order loop: [break] ends the recursion. *)
Fixpoint sortingOrderLoop (h : Heap) (oldDict : list nat) (dict : list nat)
    (previousPos : Z) (hd : gmap string string) : gmap string string :=
  match dict with
  | [] => hd
  | entry :: rest =>
      let sn := entryGet h entry "SN" in
      let pos := Find oldDict (fun entry => String.eqb (entryGet h entry "SN") sn) in
      if 0 <=? pos then
        if previousPos <? pos then sortingOrderLoop h oldDict rest pos hd
        else SetHD_SO hd "unknown"
      else sortingOrderLoop h oldDict rest previousPos hd
  end.

Fixpoint buildDictTable (h : Heap) (dict : list nat) (dictTable : gmap string bool)
    : gmap string bool :=
  match dict with
  | [] => dictTable
  | entry :: rest => buildDictTable h rest (<[entryGet h entry "SN" := true]> dictTable)
  end.

Definition ReplaceReferenceSequenceDictionary (dict : list nat) (w : World)
    : option (World * option AlignmentFilter) :=
  let hd :=
    if String.eqb (index (HD (header w)) "SO") "coordinate" then
      sortingOrderLoop (heap w) (SQ (header w)) dict (-1) (HD (header w))
    else HD (header w) in
  let dictTable := buildDictTable (heap w) dict ∅ in
  let hdr := withSQ (withHD (header w) hd) dict in
  Some (mkWorld (heap w) hdr,
        Some (ReplaceReferenceSequenceDictionary_closure dictTable)).

(** The function literal returned by [ReplaceReferenceSequenceDictionary]:
    [dictTable[aln.RNAME]], false for a name that is not a key. *)
Definition ReplaceReferenceSequenceDictionary_aln (dictTable : gmap string bool)
    (aln : Alignment) : bool :=
  default false (dictTable !! RNAME aln).

(** ** Predicate filters *)

Definition FilterUnmappedReads_aln (aln : Alignment) : bool :=
  Z.land (FLAG aln) Unmapped =? 0.

Definition FilterUnmappedReadsStrict_aln (aln : Alignment) : bool :=
  (Z.land (FLAG aln) Unmapped =? 0)
  && negb (POS aln =? 0)
  && negb (String.eqb (RNAME aln) "*").

(** [strings.ContainsAny s chars] for a set of ASCII [chars]. *)
Fixpoint ContainsAny (s : string) (chars : string) : bool :=
  match s with
  | EmptyString => false
  | String c rest =>
      existsb (Ascii.eqb c) (list_ascii_of_string chars) || ContainsAny rest chars
  end.

Definition FilterNonExactMappingReads_aln (aln : Alignment) : bool :=
  negb (ContainsAny (CIGAR aln) "IDNHPX=").

Definition X0 : string := "X0".
Definition X1 : string := "X1".
Definition XM : string := "XM".
Definition XO : string := "XO".
Definition XG : string := "XG".

(** The type assertion [v.(int32)]: it panics on any other dynamic
    type. *)
Definition assertInt32 (v : TagValue) : option Z :=
  match v with
  | VInt32 i => Some i
  | _ => None
  end.

(** The condition [!ok || x.(int32) != expected] of one [if] of
    [FilterNonExactMappingReadsStrict]; [||] does not evaluate the
    assertion when the tag is absent. *)
Definition tagDiffers (tags : SmallMap) (key : string) (expected : Z) : option bool :=
  match SmallMap_Get tags key with
  | None => Some true
  | Some x =>
      match assertInt32 x with
      | Some i => Some (negb (i =? expected))
      | None => None
      end
  end.

(** [if cond { return false }; rest]. *)
Definition returnFalseIf (cond : option bool) (rest : option bool) : option bool :=
  match cond with
  | None => None
  | Some true => Some false
  | Some false => rest
  end.

Definition FilterNonExactMappingReadsStrict_aln (aln : Alignment) : option bool :=
  returnFalseIf (tagDiffers (TAGS aln) X0 1)
  (returnFalseIf (tagDiffers (TAGS aln) X1 0)
  (returnFalseIf (tagDiffers (TAGS aln) XM 0)
  (returnFalseIf (tagDiffers (TAGS aln) XO 0)
  (returnFalseIf (tagDiffers (TAGS aln) XG 0)
  (Some true))))).

Definition FilterDuplicateReads_aln (aln : Alignment) : bool :=
  Z.land (FLAG aln) Duplicate =? 0.

Definition sr : string := "sr".

Definition FilterOptionalReads_aln (aln : Alignment) : bool :=
  negb (bool_decide (is_Some (SmallMap_Get (TAGS aln) sr))).

Definition FilterUnmappedReads (w : World) : option (World * option AlignmentFilter) :=
  Some (w, Some FilterUnmappedReads_closure).

Definition FilterUnmappedReadsStrict (w : World) : option (World * option AlignmentFilter) :=
  Some (w, Some FilterUnmappedReadsStrict_closure).

Definition FilterNonExactMappingReads (w : World) : option (World * option AlignmentFilter) :=
  Some (w, Some FilterNonExactMappingReads_closure).

Definition FilterNonExactMappingReadsStrict (w : World)
    : option (World * option AlignmentFilter) :=
  Some (w, Some FilterNonExactMappingReadsStrict_closure).

Definition FilterDuplicateReads (w : World) : option (World * option AlignmentFilter) :=
  Some (w, Some FilterDuplicateReads_closure).

Definition FilterOptionalReads (w : World) : option (World * option AlignmentFilter) :=
  match UserRecords (header w) !! "@sr" with
  | Some _ =>
      Some (mkWorld (heap w)
              (withUserRecords (header w) (delete "@sr" (UserRecords (header w)))),
            Some FilterOptionalReads_closure)
  | None => Some (w, None)
  end.

(** ** AddOrReplaceReadGroup *)


Definition AddOrReplaceReadGroup_aln (id : string) (aln : Alignment) : Alignment * bool :=
  (SetRG aln id, true).

(** ** AddPGLine *)

(** [strconv.FormatInt]: digits of the standard library. *)
Definition digits : string := "0123456789abcdefghijklmnopqrstuvwxyz".

Definition digit (d : Z) : ascii :=
  nth (Z.to_nat d) (list_ascii_of_string digits) "0"%char.

(** The digit loop of [strconv.FormatInt] on a magnitude [u]: the low
    digit is produced first and the string grows to the left.  A 64-bit
    magnitude has at most 64 digits, which bounds the loop. *)
Fixpoint formatBits (fuel : nat) (u : Z) (base : Z) (acc : string) : string :=
  match fuel with
  | O => acc
  | S fuel' =>
      if u <? base then String (digit u) acc
      else formatBits fuel' (u / base) base (String (digit (u mod base)) acc)
  end.

Definition FormatInt (i : Z) (base : Z) : string :=
  if i <? 0 then String "-"%char (formatBits 64 (- i) base "")
  else formatBits 64 i base "".

(** The collision loop.  [rand.Int63n(0x10000)] is an oracle: [draws]
    lists the numbers it returns, in order.  The result is the local
    variable [id] when the loop is left, or [None] when the loop is
    still running after all the supplied draws. *)
Fixpoint collisionLoop (h : Heap) (pg : list nat) (draws : list Z) (id : string)
    : option string :=
  if 0 <=? Find pg (fun entry => String.eqb (entryGet h entry "ID") id) then
    match draws with
    | [] => None
    | r :: draws' => collisionLoop h pg draws' (id +:+ FormatInt r 16)
    end
  else Some id.

(** The tail loop: the ID of the first record scanned that no record
    of [PG] names as its PP, if there is one. *)
Fixpoint tailLoop (h : Heap) (pg : list nat) (scan : list nat) : option string :=
  match scan with
  | [] => None
  | PG :: rest =>
      let nextID := entryGet h PG "ID" in
      if Find pg (fun entry => String.eqb (entryGet h entry "PP") nextID) <? 0
      then Some nextID
      else tailLoop h pg rest
  end.

(** The result is [None] when the collision loop outlasts [draws] or
    when the write through [newPG] panics. *)
Definition AddPGLine (newPG : loc) (draws : list Z) (w : World)
    : option (World * option AlignmentFilter) :=
  let id := entryGet (heap w) newPG "ID" in
  match collisionLoop (heap w) (PG (header w)) draws id with
  | None => None
  | Some id =>
      let h' :=
        match tailLoop (heap w) (PG (header w)) (PG (header w)) with
        | Some nextID => entrySet (heap w) newPG "PP" nextID
        | None => Some (heap w)
        end in
      match h' with
      | None => None
      | Some h' =>
          Some (mkWorld h' (withPG (header w) (PG (header w) ++ [newPG])), None)
      end
  end.

(** ** RenameChromosomes *)

Fixpoint renameLoop (h : Heap) (sq : list nat) : Heap :=
  match sq with
  | [] => h
  | entry :: rest =>
      match h !! entry with
      | Some m =>
          match m !! "SN" with
          | Some sn => renameLoop (<[entry := <["SN" := "chr" +:+ sn]> m]> h) rest
          | None => renameLoop h rest
          end
      | None => renameLoop h rest
      end
  end.

Definition RenameChromosomes (w : World) : option (World * option AlignmentFilter) :=
  Some (mkWorld (renameLoop (heap w) (SQ (header w))) (header w),
        Some RenameChromosomes_closure).

Definition RenameChromosomes_aln (aln : Alignment) : Alignment * bool :=
  let aln :=
    if negb (String.eqb (RNAME aln) "=") && negb (String.eqb (RNAME aln) "*")
    then withRNAME aln ("chr" +:+ RNAME aln) else aln in
  let aln :=
    if negb (String.eqb (RNEXT aln) "=") && negb (String.eqb (RNEXT aln) "*")
    then withRNEXT aln ("chr" +:+ RNEXT aln) else aln in
  (aln, true).

(** ** AddREFID *)

(** The conversion [int32(index)] of a Go [int]: two's-complement
    wrap-around. *)
Definition int32 (z : Z) : Z :=
  (z + 2 ^ 31) mod 2 ^ 32 - 2 ^ 31.

Fixpoint refidLoop (h : Heap) (sq : list nat) (index : Z) (dictTable : gmap string Z)
    : gmap string Z :=
  match sq with
  | [] => dictTable
  | entry :: rest =>
      refidLoop h rest (index + 1) (<[entryGet h entry "SN" := int32 index]> dictTable)
  end.

Definition AddREFID (w : World) : option (World * option AlignmentFilter) :=
  let dictTable := refidLoop (heap w) (SQ (header w)) 0 ∅ in
  Some (w, Some (AddREFID_closure dictTable)).

Definition AddREFID_aln (dictTable : gmap string Z) (aln : Alignment) : Alignment * bool :=
  let value :=
    match dictTable !! RNAME aln with
    | Some value => value
    | None => -1
    end in
  (SetREFID aln value, true).

(** ** Calling an alignment filter

    A call runs the function literal on one alignment.  The state it
    could reach is the closure's captured variables, the world of the
    header phase and the alignment; the call returns all three as it
    leaves them, with the decision.  [None] is a panic. *)
Record RecordState := mkRecordState {
  closure : AlignmentFilter;
  world : World;
  alignment : Alignment
}.

Definition call (s : RecordState) : option (bool * RecordState) :=
  let pure (b : bool) := Some (b, s) in
  let mutating (r : Alignment * bool) :=
    Some (snd r, mkRecordState (closure s) (world s) (fst r)) in
  match closure s with
  | ReplaceReferenceSequenceDictionary_closure dictTable =>
      pure (ReplaceReferenceSequenceDictionary_aln dictTable (alignment s))
  | FilterUnmappedReads_closure => pure (FilterUnmappedReads_aln (alignment s))
  | FilterUnmappedReadsStrict_closure => pure (FilterUnmappedReadsStrict_aln (alignment s))
  | FilterNonExactMappingReads_closure => pure (FilterNonExactMappingReads_aln (alignment s))
  | FilterNonExactMappingReadsStrict_closure =>
      match FilterNonExactMappingReadsStrict_aln (alignment s) with
      | Some b => pure b
      | None => None
      end
  | FilterDuplicateReads_closure => pure (FilterDuplicateReads_aln (alignment s))
  | FilterOptionalReads_closure => pure (FilterOptionalReads_aln (alignment s))
  | AddOrReplaceReadGroup_closure id => mutating (AddOrReplaceReadGroup_aln id (alignment s))
  | RenameChromosomes_closure => mutating (RenameChromosomes_aln (alignment s))
  | AddREFID_closure dictTable => mutating (AddREFID_aln dictTable (alignment s))
  end.

(** ** The function literals as programs on the record state

    The same ten function literals written statement by statement as
    programs that run on the whole record state, the state a literal
    can reach through its captured variables and its argument: reading
    a captured variable, reading a field of [*aln], assigning to a
    field of [*aln] or calling a method on it, and panicking. *)
Definition Action (A : Type) : Type := RecordState -> option (A * RecordState).

Definition ret {A : Type} (a : A) : Action A :=
  fun s => Some (a, s).

Definition bind {A B : Type} (m : Action A) (k : A -> Action B) : Action B :=
  fun s =>
    match m s with
    | Some (a, s') => k a s'
    | None => None
    end.

Declare Scope action_scope.
Notation "x ← m ; k" := (bind m (fun x => k))
  (at level 20, m at level 100, k at level 200, only parsing) : action_scope.
Notation "m ;; k" := (bind m (fun _ => k))
  (at level 100, k at level 200, only parsing, right associativity) : action_scope.
Open Scope action_scope.

Definition panic {A : Type} : Action A :=
  fun _ => None.

(** [aln.FIELD] *)
Definition readAln {A : Type} (field : Alignment -> A) : Action A :=
  fun s => Some (field (alignment s), s).

(** [aln.FIELD = v] and the setters of [*Alignment]. *)
Definition writeAln (update : Alignment -> Alignment) : Action unit :=
  fun s => Some (tt, mkRecordState (closure s) (world s) (update (alignment s))).

(** The captured variables: [dictTable] of
    [ReplaceReferenceSequenceDictionary], [id] of
    [AddOrReplaceReadGroup] and [dictTable] of [AddREFID]. *)
Definition capturedDictTable : Action (gmap string bool) :=
  fun s =>
    match closure s with
    | ReplaceReferenceSequenceDictionary_closure dictTable => Some (dictTable, s)
    | _ => None
    end.

Definition capturedId : Action string :=
  fun s =>
    match closure s with
    | AddOrReplaceReadGroup_closure id => Some (id, s)
    | _ => None
    end.

Definition capturedRefidTable : Action (gmap string Z) :=
  fun s =>
    match closure s with
    | AddREFID_closure dictTable => Some (dictTable, s)
    | _ => None
    end.

Definition ReplaceReferenceSequenceDictionary_body : Action bool :=
  dictTable ← capturedDictTable;
  rname ← readAln RNAME;
  ret (default false (dictTable !! rname)).

Definition FilterUnmappedReads_body : Action bool :=
  flag ← readAln FLAG;
  ret (Z.land flag Unmapped =? 0).

Definition FilterUnmappedReadsStrict_body : Action bool :=
  flag ← readAln FLAG;
  pos ← readAln POS;
  rname ← readAln RNAME;
  ret ((Z.land flag Unmapped =? 0) && negb (pos =? 0) && negb (String.eqb rname "*")).

Definition FilterNonExactMappingReads_body : Action bool :=
  cigar ← readAln CIGAR;
  ret (negb (ContainsAny cigar "IDNHPX=")).

(** [x, ok := aln.TAGS.Get(key); !ok || x.(int32) != expected] *)
Definition tagCondition (key : string) (expected : Z) : Action bool :=
  tags ← readAln TAGS;
  match SmallMap_Get tags key with
  | None => ret true
  | Some x =>
      match assertInt32 x with
      | Some i => ret (negb (i =? expected))
      | None => panic
      end
  end.

Definition FilterNonExactMappingReadsStrict_body : Action bool :=
  c0 ← tagCondition X0 1;
  if c0 then ret false else
  c1 ← tagCondition X1 0;
  if c1 then ret false else
  cm ← tagCondition XM 0;
  if cm then ret false else
  co ← tagCondition XO 0;
  if co then ret false else
  cg ← tagCondition XG 0;
  if cg then ret false else
  ret true.

Definition FilterDuplicateReads_body : Action bool :=
  flag ← readAln FLAG;
  ret (Z.land flag Duplicate =? 0).

Definition FilterOptionalReads_body : Action bool :=
  tags ← readAln TAGS;
  ret (negb (bool_decide (is_Some (SmallMap_Get tags sr)))).

Definition AddOrReplaceReadGroup_body : Action bool :=
  id ← capturedId;
  writeAln (fun aln => SetRG aln id);;
  ret true.

Definition RenameChromosomes_body : Action bool :=
  rname ← readAln RNAME;
  (if negb (String.eqb rname "=") && negb (String.eqb rname "*")
   then writeAln (fun aln => withRNAME aln ("chr" +:+ rname))
   else ret tt);;
  rnext ← readAln RNEXT;
  (if negb (String.eqb rnext "=") && negb (String.eqb rnext "*")
   then writeAln (fun aln => withRNEXT aln ("chr" +:+ rnext))
   else ret tt);;
  ret true.

Definition AddREFID_body : Action bool :=
  dictTable ← capturedRefidTable;
  rname ← readAln RNAME;
  writeAln (fun aln =>
              SetREFID aln
                match dictTable !! rname with
                | Some value => value
                | None => -1
                end);;
  ret true.

(** Calling the closure of a record state runs its function literal. *)
Definition run (s : RecordState) : option (bool * RecordState) :=
  match closure s with
  | ReplaceReferenceSequenceDictionary_closure _ => ReplaceReferenceSequenceDictionary_body s
  | FilterUnmappedReads_closure => FilterUnmappedReads_body s
  | FilterUnmappedReadsStrict_closure => FilterUnmappedReadsStrict_body s
  | FilterNonExactMappingReads_closure => FilterNonExactMappingReads_body s
  | FilterNonExactMappingReadsStrict_closure => FilterNonExactMappingReadsStrict_body s
  | FilterDuplicateReads_closure => FilterDuplicateReads_body s
  | FilterOptionalReads_closure => FilterOptionalReads_body s
  | AddOrReplaceReadGroup_closure _ => AddOrReplaceReadGroup_body s
  | RenameChromosomes_closure => RenameChromosomes_body s
  | AddREFID_closure _ => AddREFID_body s
  end.

Close Scope action_scope.

(** A program keeps the frame when no run of it changes the captured
    variables or the world of the header phase. *)
Definition keepsFrame {A : Type} (m : Action A) : Prop :=
  forall s a s', m s = Some (a, s') -> closure s' = closure s /\ world s' = world s.

(** * Notions used to state the properties *)

(** [HD.SO], the declared sort order. *)
Definition sortingOrder (hdr : Header) : string := index (HD hdr) "SO".

(** The old index of the name of [entry], when the old dictionary has the name. *)
Definition oldIndex (h : gmap nat (gmap string string)) (oldDict : list nat) (entry : nat)
    : option Z :=
  let pos := Find oldDict
    (fun old => String.eqb (entryGet h old "SN") (entryGet h entry "SN")) in
  if 0 <=? pos then Some pos else None.

Definition matchedIndices (h : gmap nat (gmap string string)) (oldDict dict : list nat)
    : list Z :=
  omap (oldIndex h oldDict) dict.

Fixpoint increasingFrom (previous : Z) (l : list Z) : bool :=
  match l with
  | [] => true
  | x :: rest => (previous <? x) && increasingFrom x rest
  end.

(** The decision of one call of an alignment filter on [aln], and the
    alignment as the call leaves it. *)
Definition decision (f : AlignmentFilter) (w : World) (aln : Alignment) : option bool :=
  match call (mkRecordState f w aln) with
  | Some (b, _) => Some b
  | None => None
  end.

Definition mutated (f : AlignmentFilter) (w : World) (aln : Alignment) : option Alignment :=
  match call (mkRecordState f w aln) with
  | Some (_, s) => Some (alignment s)
  | None => None
  end.

(** The sequence names of a dictionary, in order. *)
Definition names (h : gmap nat (gmap string string)) (dict : list nat) : list string :=
  map (fun entry => entryGet h entry "SN") dict.

(** Position of the Unmapped bit in FLAG. *)
Definition UnmappedBit : Z := 2.

(** A dictionary entry with its name, when it has one, prefixed. *)
Definition renameEntry (m : gmap string string) : gmap string string :=
  match m !! "SN" with
  | Some sn => <["SN" := "chr" +:+ sn]> m
  | None => m
  end.

(** A reference field with the prefix, the two sentinels excepted. *)
Definition renameField (s : string) : string :=
  if decide (s = "*" \/ s = "=") then s else "chr" +:+ s.

(** The five optional fields of the strict exactness filter hold the
    values of an exact match. *)
Definition exactTags (tags : list (string * TagValue)) : Prop :=
  SmallMap_Get tags X0 = Some (VInt32 1) /\
  SmallMap_Get tags X1 = Some (VInt32 0) /\
  SmallMap_Get tags XM = Some (VInt32 0) /\
  SmallMap_Get tags XO = Some (VInt32 0) /\
  SmallMap_Get tags XG = Some (VInt32 0).

Definition exactnessKeys : list string := [X0; X1; XM; XO; XG].

(** Each of the five fields that is present holds a 32-bit integer. *)
Definition typedTags (tags : list (string * TagValue)) : Prop :=
  forall key v,
    key ∈ exactnessKeys -> SmallMap_Get tags key = Some v -> exists i, v = VInt32 i.

(** Number of hexadecimal digits of a 16-bit number written without
    leading zeros. *)
Definition hexWidth (r : Z) : nat :=
  if r <? 0x10 then 1 else if r <? 0x100 then 2 else if r <? 0x1000 then 3 else 4.

Definition isHexDigit (c : ascii) : bool :=
  existsb (Ascii.eqb c) (list_ascii_of_string "0123456789abcdef").

(** Reading a lower-case hexadecimal numeral back: the value of a
    digit, from its character code (0 to 9 are 48 to 57, a to f are 97
    to 102), and of a non-empty string of digits, most significant
    digit first. *)
Definition hexValue (c : ascii) : option Z :=
  let code := Z.of_N (N_of_ascii c) in
  if (48 <=? code) && (code <=? 57) then Some (code - 48)
  else if (97 <=? code) && (code <=? 102) then Some (code - 87)
  else None.

Fixpoint parseHexFrom (acc : Z) (s : string) : option Z :=
  match s with
  | EmptyString => Some acc
  | String c rest =>
      match hexValue c with
      | Some d => parseHexFrom (16 * acc + d) rest
      | None => None
      end
  end.

Definition parseHex (s : string) : option Z :=
  match s with
  | EmptyString => None
  | String _ _ => parseHexFrom 0 s
  end.

(** The IDs of the program records, in order. *)
Definition programIDs (h : gmap nat (gmap string string)) (pg : list nat) : list string :=
  map (fun entry => entryGet h entry "ID") pg.

(** A header with one program record "a"; a second record "a" and a
    record "b" are about to be added. *)
Definition collidingWorld : World :=
  mkWorld
    (<[10%nat := {["ID" := "a"]}]>
       (<[11%nat := {["ID" := "a"]}]> (<[12%nat := {["ID" := "b"]}]> ∅)))
    (mkHeader ∅ [] [] [10%nat] ∅).

(** A coordinate-sorted header over the dictionary chr1, chr2, chr3. *)
Definition sortedWorld : World :=
  mkWorld
    (<[0%nat := {["SN" := "chr1"]}]>
       (<[1%nat := {["SN" := "chr2"]}]> (<[2%nat := {["SN" := "chr3"]}]> ∅)))
    (mkHeader {["SO" := "coordinate"]} [0%nat; 1%nat; 2%nat] [] [] ∅).

(** A header over the dictionary chrA, chrB. *)
Definition refidWorld : World :=
  mkWorld
    (<[0%nat := {["SN" := "chrA"; "LN" := "1000"]}]> (<[1%nat := {["SN" := "chrB"]}]> ∅))
    (mkHeader ∅ [0%nat; 1%nat] [] [] ∅).

(** A header over the dictionary 1, X. *)
Definition plainWorld : World :=
  mkWorld
    (<[0%nat := {["SN" := "1"]}]> (<[1%nat := {["SN" := "X"]}]> ∅))
    (mkHeader ∅ [0%nat; 1%nat] [] [] ∅).

Definition read (rname : string) (tags : list (string * TagValue)) : Alignment :=
  mkAlignment 0 1 rname "=" "10M" tags 0.

(** Optional fields of an exact match, and the same without XG. *)
Definition exactFields : list (string * TagValue) :=
  [(X0, VInt32 1); (X1, VInt32 0); (XM, VInt32 0); (XO, VInt32 0); (XG, VInt32 0)].

Definition fieldsWithoutXG : list (string * TagValue) :=
  [(X0, VInt32 1); (X1, VInt32 0); (XM, VInt32 0); (XO, VInt32 0)].

(** Position of the Duplicate bit in FLAG. *)
Definition DuplicateBit : Z := 10.

(** The characters of a string. *)
Definition chars (s : string) : list ascii := list_ascii_of_string s.

(** The PP references of the program records, in order. *)
Definition programPPs (h : gmap nat (gmap string string)) (pg : list nat) : list string :=
  map (fun entry => entryGet h entry "PP") pg.

(** The candidate ID after the given draws have been appended. *)
Definition withSuffixes (id : string) (draws : list Z) : string :=
  fold_left (fun id r => id +:+ FormatInt r 16) draws id.

(** The program records form one chain in file order: the IDs are
    distinct, the PP of each record after the first is the ID of the
    record before it, and the PP of the first record ([root], the empty
    string when it has none) is the ID of no record. *)
Definition isChain (h : gmap nat (gmap string string)) (pg : list nat) : Prop :=
  NoDup (programIDs h pg) /\
  exists root,
    (root ∉ programIDs h pg) /\
    programPPs h pg = take (length pg) (root :: programIDs h pg).

(** A chain of two records, and two records to add to it. *)
Definition chainWorld : World :=
  mkWorld
    (<[0%nat := {["ID" := "bwa"]}]>
       (<[1%nat := {["ID" := "sort"; "PP" := "bwa"]}]>
          (<[2%nat := {["ID" := "elprep"]}]> (<[3%nat := {["ID" := "split"]}]> ∅))))
    (mkHeader ∅ [] [] [0%nat; 1%nat] ∅).

(** An optional field is present with a value that is not a 32-bit
    integer. *)
Definition illTyped (tags : list (string * TagValue)) (key : string) : Prop :=
  exists v, SmallMap_Get tags key = Some v /\ forall i, v <> VInt32 i.

(** An optional field is present as the given 32-bit integer. *)
Definition holds (tags : list (string * TagValue)) (key : string) (expected : Z) : Prop :=
  SmallMap_Get tags key = Some (VInt32 expected).

(** The name-to-index table of a list of names: a later index replaces
    an earlier one. *)
Fixpoint refidTable (ns : list string) (index : Z) (dictTable : gmap string Z)
    : gmap string Z :=
  match ns with
  | [] => dictTable
  | name :: rest => refidTable rest (index + 1) (<[name := int32 index]> dictTable)
  end.

(** ** ReplaceReferenceSequenceDictionaryFromSamFile

    The file operations are outside this package: what [Open],
    [ParseHeader] and [Close] return for the given file is an input of
    the model, and the calls made are recorded in order.  [ParseHeader]
    gives the SQ of the header it parsed, as references to the maps it
    allocated. *)
Inductive FileCall := CallOpen | CallParseHeader | CallClose.

Record SamFile := mkSamFile {
  openResult : option string;
  parseHeaderResult : list nat + string;
  closeResult : option string
}.

(** The results [f] and [err] and the calls made.  [err] is a named
    result: the deferred function, registered once [Open] has
    succeeded, stores the error of [Close] in it when it is still nil
    at the return. *)
Definition ReplaceReferenceSequenceDictionaryFromSamFile (samFile : SamFile)
    : option (World -> option (World * option AlignmentFilter)) * option string *
      list FileCall :=
  match openResult samFile with
  | Some err => (None, Some err, [CallOpen])
  | None =>
      let '(f, err) :=
        match parseHeaderResult samFile with
        | inr err => (None, Some err)
        | inl sq => (Some (ReplaceReferenceSequenceDictionary sq), None)
        end in
      let nerr := closeResult samFile in
      let err := match err with None => nerr | Some _ => err end in
      (f, err, [CallOpen; CallParseHeader; CallClose])
  end.

(** A header over the dictionary 1, X, and a separate dictionary entry
    that is also named 1. *)
Definition separateDictWorld : World :=
  mkWorld
    (<[0%nat := {["SN" := "1"]}]>
       (<[1%nat := {["SN" := "X"]}]> (<[5%nat := {["SN" := "1"; "LN" := "248956422"]}]> ∅)))
    (mkHeader ∅ [0%nat; 1%nat] [] [] ∅).

(** * Properties *)

(** ** Facts about [Find] *)

Lemma FindFrom_bounds dict predicate i :
  FindFrom dict predicate i = -1 \/
  i <= FindFrom dict predicate i < i + Z.of_nat (length dict).
Proof.
  revert i. induction dict as [|entry rest IH]; intros i; simpl; [by left|].
  destruct (predicate entry); [right; lia|].
  destruct (IH (i + 1)) as [->|?]; [by left | right; lia].
Qed.

Lemma FindFrom_none dict predicate i :
  0 <= i ->
  FindFrom dict predicate i < 0 <-> Forall (fun entry => predicate entry = false) dict.
Proof.
  revert i. induction dict as [|entry rest IH]; intros i Hi; simpl.
  - split; [constructor | lia].
  - destruct (predicate entry) eqn:Hp.
    + split; [lia | inversion 1; congruence].
    + rewrite IH by lia. split; [by constructor | by inversion 1].
Qed.

Lemma FindFrom_some dict predicate i :
  0 <= i -> 0 <= FindFrom dict predicate i ->
  exists n entry,
    FindFrom dict predicate i = i + Z.of_nat n /\
    dict !! n = Some entry /\ predicate entry = true /\
    Forall (fun entry => predicate entry = false) (take n dict).
Proof.
  revert i. induction dict as [|entry rest IH]; intros i Hi; simpl; [lia|].
  destruct (predicate entry) eqn:Hp; intros Hf.
  - exists 0%nat, entry. repeat split; [lia | done | constructor].
  - destruct (IH (i + 1)) as (n & e & Hn & Hl & Hpe & Hall); [lia | done |].
    exists (S n), e. repeat split; [lia | done | done | by constructor].
Qed.

(** ** The sort-order check *)

Lemma sortingOrderLoop_increasingFrom h oldDict dict previousPos hd :
  sortingOrderLoop h oldDict dict previousPos hd =
  if increasingFrom previousPos (matchedIndices h oldDict dict)
  then hd else SetHD_SO hd "unknown".
Proof.
  revert previousPos. induction dict as [|entry rest IH]; intros previousPos; [done|].
  unfold matchedIndices in *. simpl. unfold oldIndex at 1.
  destruct (0 <=? _) eqn:Hpos; simpl; [|apply IH].
  destruct (previousPos <? _) eqn:Hlt; simpl; [apply IH | done].
Qed.

Lemma increasingFrom_sorted previous l :
  increasingFrom previous l = true <-> StronglySorted Z.lt (previous :: l).
Proof.
  revert previous. induction l as [|x rest IH]; intros previous; simpl.
  - split; [repeat constructor | done].
  - rewrite andb_true_iff, Z.ltb_lt, IH. split.
    + intros [Hlt Hs]. constructor; [done|]. constructor; [done|].
      apply StronglySorted_inv in Hs as [_ Hall].
      eapply Forall_impl; [exact Hall | simpl; intros; lia].
    + intros Hs. apply StronglySorted_inv in Hs as [Hs Hall].
      split; [by inversion Hall | done].
Qed.

Lemma matchedIndices_nonneg h oldDict dict :
  Forall (fun pos => 0 <= pos) (matchedIndices h oldDict dict).
Proof.
  unfold matchedIndices. induction dict as [|entry rest IH]; simpl; [constructor|].
  unfold oldIndex at 1. destruct (0 <=? _) eqn:Hpos; simpl; [|done].
  constructor; [lia | done].
Qed.

Lemma increasingFrom_initial h oldDict dict :
  increasingFrom (-1) (matchedIndices h oldDict dict) = true <->
  StronglySorted Z.lt (matchedIndices h oldDict dict).
Proof.
  rewrite increasingFrom_sorted. split.
  - intros Hs. by apply StronglySorted_inv in Hs as [Hs _].
  - intros Hs. constructor; [done|].
    eapply Forall_impl; [apply matchedIndices_nonneg | simpl; intros; lia].
Qed.

(** The old index is a position of the name in the old dictionary: the
    first one, and the only one when names are unique. *)
Lemma oldIndex_Some h oldDict entry pos :
  oldIndex h oldDict entry = Some pos ->
  exists (n : nat) (old : nat),
    pos = Z.of_nat n /\ oldDict !! n = Some old /\
    entryGet h old "SN" = entryGet h entry "SN" /\
    entryGet h entry "SN" ∉ names h (take n oldDict).
Proof.
  unfold oldIndex, Find. destruct (0 <=? _) eqn:Hpos; [|done].
  apply Z.leb_le in Hpos. intros [= <-].
  destruct (FindFrom_some _ _ 0 ltac:(lia) Hpos) as (n & old & Hn & Hlook & Hp & Hall).
  exists n, old. split; [lia|]. split; [done|]. split; [by apply String.eqb_eq|].
  unfold names. intros Hin. apply list_elem_of_In, in_map_iff in Hin as (x & Hx & Hin).
  apply list_elem_of_In in Hin. rewrite Forall_forall in Hall.
  specialize (Hall x Hin). apply String.eqb_neq in Hall. done.
Qed.

Lemma oldIndex_absent h oldDict entry :
  entryGet h entry "SN" ∉ names h oldDict -> oldIndex h oldDict entry = None.
Proof.
  intros Habsent. destruct (oldIndex h oldDict entry) as [pos|] eqn:Hpos; [|done].
  apply oldIndex_Some in Hpos as (n & old & _ & Hlook & Hsn & _).
  exfalso. apply Habsent. rewrite <- Hsn. unfold names.
  apply list_elem_of_In, in_map_iff. exists old.
  split; [done|]. apply list_elem_of_In. by eapply list_elem_of_lookup_2.
Qed.

Lemma oldIndex_position h oldDict entry (n : nat) old :
  NoDup (names h oldDict) ->
  oldDict !! n = Some old ->
  entryGet h old "SN" = entryGet h entry "SN" ->
  oldIndex h oldDict entry = Some (Z.of_nat n).
Proof.
  intros Hnd Hlook Hsn.
  destruct (oldIndex h oldDict entry) as [pos|] eqn:Hpos.
  - apply oldIndex_Some in Hpos as (n' & old' & -> & Hlook' & Hsn' & _).
    do 2 f_equal. eapply (NoDup_lookup _ _ _ _ Hnd); unfold names.
    + rewrite list_lookup_fmap, Hlook'. simpl. by rewrite Hsn'.
    + rewrite list_lookup_fmap, Hlook. simpl. by rewrite Hsn.
  - exfalso. unfold oldIndex, Find in Hpos.
    destruct (0 <=? _) eqn:Hneg; [done|].
    apply Z.leb_gt, FindFrom_none in Hneg; [|lia]. rewrite Forall_forall in Hneg.
    assert (old ∈ oldDict) as Hin by (by eapply list_elem_of_lookup_2).
    specialize (Hneg old Hin). apply String.eqb_neq in Hneg. done.
Qed.

Lemma index_SetHD_SO hd value : index (SetHD_SO hd value) "SO" = value.
Proof. unfold index, SetHD_SO. by rewrite lookup_insert_eq. Qed.

Lemma matchedIndices_app h oldDict prefix suffix :
  matchedIndices h oldDict (prefix ++ suffix) =
  matchedIndices h oldDict prefix ++ matchedIndices h oldDict suffix.
Proof. apply omap_app. Qed.

Lemma increasingFrom_app_false previous l1 l2 :
  increasingFrom previous l1 = false -> increasingFrom previous (l1 ++ l2) = false.
Proof.
  revert previous. induction l1 as [|x rest IH]; intros previous; simpl; [done|].
  rewrite !andb_false_iff. intros [?|?]; [by left | right; by apply IH].
Qed.

Lemma matchedIndices_filter h oldDict dict :
  matchedIndices h oldDict (filter (fun entry => is_Some (oldIndex h oldDict entry)) dict) =
  matchedIndices h oldDict dict.
Proof.
  unfold matchedIndices. induction dict as [|entry rest IH]; [done|].
  rewrite filter_cons. destruct (decide _) as [Hs|Hn]; simpl.
  - destruct Hs as [pos Hs]. rewrite Hs. f_equal. exact IH.
  - destruct (oldIndex h oldDict entry) eqn:Ho; [|exact IH].
    exfalso. apply Hn. by eexists.
Qed.

(** C1: [ReplaceReferenceSequenceDictionary] on a header whose SO is
    "coordinate" leaves HD as it is when the old indices of the entries
    of [dict] that the old SQ also names are strictly increasing, and
    sets SO to "unknown" otherwise; the outcome is settled by the
    shortest prefix of [dict] with a violation, whatever follows;
    entries whose name the old SQ does not have can be dropped without
    changing the outcome; and when SO is not "coordinate" HD is left as
    it is. *)
Theorem ReplaceReferenceSequenceDictionary_sorting_order (w : World) (dict : list nat) :
  exists hd' f,
    ReplaceReferenceSequenceDictionary dict w =
      Some (mkWorld (heap w) (withSQ (withHD (header w) hd') dict), Some f) /\
    (sortingOrder (header w) = "coordinate" ->
       (StronglySorted Z.lt (matchedIndices (heap w) (SQ (header w)) dict) ->
          hd' = HD (header w) /\ index hd' "SO" = "coordinate") /\
       (~ StronglySorted Z.lt (matchedIndices (heap w) (SQ (header w)) dict) ->
          hd' = SetHD_SO (HD (header w)) "unknown" /\ index hd' "SO" = "unknown") /\
       (forall prefix suffix, dict = prefix ++ suffix ->
          ~ StronglySorted Z.lt (matchedIndices (heap w) (SQ (header w)) prefix) ->
          hd' = sortingOrderLoop (heap w) (SQ (header w)) prefix (-1) (HD (header w))) /\
       hd' = sortingOrderLoop (heap w) (SQ (header w))
               (filter (fun entry => is_Some (oldIndex (heap w) (SQ (header w)) entry)) dict)
               (-1) (HD (header w))) /\
    (sortingOrder (header w) <> "coordinate" -> hd' = HD (header w)).
Proof.
  unfold ReplaceReferenceSequenceDictionary, sortingOrder.
  destruct (String.eqb_spec (index (HD (header w)) "SO") "coordinate") as [Hso|Hso];
    eexists _, _; (split; [reflexivity|]); split; try done.
  intros _. rewrite !sortingOrderLoop_increasingFrom, matchedIndices_filter.
  destruct (increasingFrom _ _) eqn:Hinc.
  - apply increasingFrom_initial in Hinc.
    split; [done|]. split; [done|]. split; [|done].
    intros prefix suffix -> Hns. exfalso. apply Hns.
    rewrite matchedIndices_app in Hinc.
    clear -Hinc. induction (matchedIndices _ _ prefix) as [|x l IH]; [constructor|].
    simpl in Hinc. apply StronglySorted_inv in Hinc as [Hs Hall].
    constructor; [by apply IH|]. by apply Forall_app in Hall as [? _].
  - assert (~ StronglySorted Z.lt (matchedIndices (heap w) (SQ (header w)) dict)) as Hns.
    { rewrite <- increasingFrom_initial. congruence. }
    split; [done|]. split; [intros _; split; [done | apply index_SetHD_SO]|].
    split; [|done].
    intros prefix suffix -> Hnp.
    rewrite sortingOrderLoop_increasingFrom.
    rewrite <- increasingFrom_initial in Hnp.
    by destruct (increasingFrom (-1) (matchedIndices _ _ prefix)).
Qed.

(** ** Dictionary membership *)

Lemma buildDictTable_lookup h dict dictTable k :
  buildDictTable h dict dictTable !! k =
  if bool_decide (k ∈ names h dict) then Some true else dictTable !! k.
Proof.
  revert dictTable. induction dict as [|entry rest IH]; intros dictTable.
  - cbn [buildDictTable]. rewrite bool_decide_eq_false_2; [done | apply not_elem_of_nil].
  - cbn [buildDictTable].
    change (names h (entry :: rest)) with (entryGet h entry "SN" :: names h rest).
    rewrite IH. destruct (decide (k ∈ names h rest)) as [Hin|Hin].
    + rewrite !bool_decide_eq_true_2; [done | by right | done].
    + rewrite (bool_decide_eq_false_2 _ Hin).
      destruct (decide (entryGet h entry "SN" = k)) as [<-|Hne].
      * rewrite lookup_insert_eq, bool_decide_eq_true_2; [done | by left].
      * rewrite lookup_insert_ne by done.
        rewrite bool_decide_eq_false_2; [done|].
        intros [?|?]%elem_of_cons; congruence.
Qed.

(** C3: after the header phase of [ReplaceReferenceSequenceDictionary]
    on [dict] the header's SQ is [dict] (the same references, the maps
    untouched), and the alignment filter it returns keeps an alignment
    exactly when its RNAME is the SN of some entry of [dict]; in
    particular "*" is kept only if an entry is named "*". *)
Theorem ReplaceReferenceSequenceDictionary_replaces_and_filters
    (w : World) (dict : list nat) :
  exists w' f,
    ReplaceReferenceSequenceDictionary dict w = Some (w', Some f) /\
    SQ (header w') = dict /\
    heap w' = heap w /\
    forall (w2 : World) (aln : Alignment),
      exists b,
        call (mkRecordState f w2 aln) = Some (b, mkRecordState f w2 aln) /\
        (b = true <->
         exists entry, entry ∈ dict /\ entryGet (heap w) entry "SN" = RNAME aln).
Proof.
  eexists _, _. split; [reflexivity|]. split; [done|]. split; [done|].
  intros w2 aln. eexists. split; [reflexivity|]. cbn [alignment].
  unfold ReplaceReferenceSequenceDictionary_aln.
  rewrite buildDictTable_lookup, lookup_empty.
  unfold names. case_bool_decide as Hin; simpl.
  - split; [intros _ | done].
    apply list_elem_of_In, in_map_iff in Hin as (entry & Hsn & Hin).
    exists entry. split; [by apply list_elem_of_In | done].
  - split; [done|]. intros (entry & Hin' & Hsn). exfalso. apply Hin.
    apply list_elem_of_In, in_map_iff. exists entry.
    split; [done | by apply list_elem_of_In].
Qed.

(** ** Unmapped reads *)

Lemma land_Unmapped flag :
  Z.land flag Unmapped = if Z.testbit flag UnmappedBit then Unmapped else 0.
Proof.
  apply Z.bits_inj'. intros n Hn. rewrite Z.land_spec.
  change Unmapped with (2 ^ 2). rewrite Z.pow2_bits_eqb by lia.
  unfold UnmappedBit. destruct (Z.eqb_spec 2 n) as [<-|Hne].
  - rewrite andb_true_r. destruct (Z.testbit flag 2);
      [by rewrite Z.pow2_bits_eqb | by rewrite Z.bits_0].
  - rewrite andb_false_r. destruct (Z.testbit flag 2);
      [rewrite Z.pow2_bits_eqb by lia; symmetry; by apply Z.eqb_neq
      | by rewrite Z.bits_0].
Qed.

Lemma land_Unmapped_eqb flag :
  (Z.land flag Unmapped =? 0) = negb (Z.testbit flag UnmappedBit).
Proof. rewrite land_Unmapped. by destruct (Z.testbit flag UnmappedBit). Qed.

(** C7: the filter of [FilterUnmappedReads] excludes an alignment
    exactly when the Unmapped bit of FLAG is set; the filter of
    [FilterUnmappedReadsStrict] excludes it exactly when the bit is set
    or POS is 0 or RNAME is "*". *)
Theorem FilterUnmappedReads_excludes (w : World) :
  (exists f,
     FilterUnmappedReads w = Some (w, Some f) /\
     forall (w2 : World) (aln : Alignment),
       exists b,
         call (mkRecordState f w2 aln) = Some (b, mkRecordState f w2 aln) /\
         (b = false <-> Z.testbit (FLAG aln) UnmappedBit = true)) /\
  (exists f,
     FilterUnmappedReadsStrict w = Some (w, Some f) /\
     forall (w2 : World) (aln : Alignment),
       exists b,
         call (mkRecordState f w2 aln) = Some (b, mkRecordState f w2 aln) /\
         (b = false <->
          Z.testbit (FLAG aln) UnmappedBit = true \/ POS aln = 0 \/ RNAME aln = "*")).
Proof.
  split; eexists; (split; [reflexivity|]); intros w2 aln; eexists;
    (split; [reflexivity|]); cbn [alignment].
  - unfold FilterUnmappedReads_aln. rewrite land_Unmapped_eqb.
    by destruct (Z.testbit (FLAG aln) UnmappedBit).
  - unfold FilterUnmappedReadsStrict_aln. rewrite land_Unmapped_eqb.
    destruct (Z.testbit (FLAG aln) UnmappedBit); simpl; [by split; [left|]|].
    destruct (Z.eqb_spec (POS aln) 0) as [Hpos|Hpos]; simpl;
      [by split; [right; left|]|].
    destruct (String.eqb_spec (RNAME aln) "*") as [Hr|Hr]; simpl;
      [by split; [right; right|]|].
    split; [done|]. by intros [?|[?|?]].
Qed.

(** ** Renaming *)

Lemma renameLoop_lookup h sq entry :
  NoDup sq ->
  renameLoop h sq !! entry =
  if decide (entry ∈ sq) then renameEntry <$> h !! entry else h !! entry.
Proof.
  intros Hnd. revert h. induction Hnd as [|first rest Hnotin Hnd IH]; intros h.
  - cbn [renameLoop]. destruct (decide _) as [Hin|]; [by apply elem_of_nil in Hin | done].
  - assert (renameLoop h (first :: rest) =
            renameLoop (match h !! first with
                        | Some m => <[first := renameEntry m]> h
                        | None => h
                        end) rest) as ->.
    { cbn [renameLoop]. unfold renameEntry.
      destruct (h !! first) as [m|] eqn:Hm; [|done].
      destruct (m !! "SN") eqn:Hsn; [done|]. by rewrite insert_id. }
    rewrite IH. destruct (decide (entry = first)) as [->|Hne].
    + rewrite decide_False by done. rewrite decide_True by left.
      destruct (h !! first) as [m|] eqn:Hm; [by rewrite lookup_insert_eq | by rewrite Hm].
    + assert (match h !! first with
              | Some m => <[first := renameEntry m]> h
              | None => h
              end !! entry = h !! entry) as ->.
      { destruct (h !! first); [by rewrite lookup_insert_ne | done]. }
      destruct (decide (entry ∈ rest)) as [Hin|Hin].
      * rewrite decide_True; [done | by right].
      * rewrite decide_False; [done|]. intros [?|?]%elem_of_cons; done.
Qed.

Lemma NoDup_names h dict : NoDup (names h dict) -> NoDup dict.
Proof. apply NoDup_fmap_1. Qed.

Lemma renameField_sentinel s : s = "*" \/ s = "=" -> renameField s = s.
Proof. intros Hs. unfold renameField. by rewrite decide_True. Qed.

Lemma renameField_other s : s <> "*" /\ s <> "=" -> renameField s = "chr" +:+ s.
Proof. intros [? ?]. unfold renameField. rewrite decide_False; [done | by intros [?|?]]. Qed.

Lemma sentinel_test {A} (s : string) (x y : A) :
  (if negb (String.eqb s "=") && negb (String.eqb s "*") then x else y) =
  if decide (s = "*" \/ s = "=") then y else x.
Proof.
  destruct (String.eqb_spec s "=") as [->|Heq]; [by rewrite decide_True by (by right)|].
  destruct (String.eqb_spec s "*") as [->|Hstar]; [by rewrite decide_True by (by left)|].
  rewrite decide_False; [done | by intros [?|?]].
Qed.

Lemma RenameChromosomes_aln_fields aln :
  RenameChromosomes_aln aln =
  (mkAlignment (FLAG aln) (POS aln) (renameField (RNAME aln)) (renameField (RNEXT aln))
     (CIGAR aln) (TAGS aln) (REFID aln), true).
Proof.
  unfold RenameChromosomes_aln, renameField.
  destruct aln as [flag pos rname rnext cigar tags refid].
  cbn [RNAME]. rewrite (sentinel_test rname).
  destruct (decide (rname = "*" \/ rname = "=")); cbn [withRNAME RNEXT];
    rewrite (sentinel_test rnext);
    by destruct (decide (rnext = "*" \/ rnext = "=")).
Qed.

(** C4: the header phase of [RenameChromosomes] prefixes the SN of
    every SQ entry (the entries being distinct maps, as they are when
    their names are unique) with "chr" once and touches nothing else;
    its alignment filter leaves an RNAME or RNEXT equal to "*" or "="
    as it is, prefixes any other once, and keeps every alignment. *)
Theorem RenameChromosomes_prefixes (w : World) :
  exists h' f,
    RenameChromosomes w = Some (mkWorld h' (header w), Some f) /\
    (NoDup (SQ (header w)) ->
     (forall entry sn,
        entry ∈ SQ (header w) ->
        entryLookup (heap w) entry "SN" = Some sn ->
        entryLookup h' entry "SN" = Some ("chr" +:+ sn)) /\
     (forall entry,
        h' !! entry =
        if decide (entry ∈ SQ (header w)) then renameEntry <$> heap w !! entry
        else heap w !! entry)) /\
    forall (w2 : World) (aln : Alignment),
      exists aln',
        call (mkRecordState f w2 aln) = Some (true, mkRecordState f w2 aln') /\
        RNAME aln' = renameField (RNAME aln) /\
        RNEXT aln' = renameField (RNEXT aln) /\
        (RNAME aln = "*" \/ RNAME aln = "=" -> RNAME aln' = RNAME aln) /\
        (RNAME aln <> "*" /\ RNAME aln <> "=" -> RNAME aln' = "chr" +:+ RNAME aln) /\
        (RNEXT aln = "*" \/ RNEXT aln = "=" -> RNEXT aln' = RNEXT aln) /\
        (RNEXT aln <> "*" /\ RNEXT aln <> "=" -> RNEXT aln' = "chr" +:+ RNEXT aln) /\
        (FLAG aln', POS aln', CIGAR aln', TAGS aln', REFID aln') =
        (FLAG aln, POS aln, CIGAR aln, TAGS aln, REFID aln).
Proof.
  eexists _, _. split; [reflexivity|]. split.
  - intros Hnd. split; [|intros entry; by apply renameLoop_lookup].
    intros entry sn Hin. unfold entryLookup.
    rewrite renameLoop_lookup, decide_True by done.
    destruct (heap w !! entry) as [m|]; [simpl|done].
    intros Hsn. unfold renameEntry. rewrite Hsn. apply lookup_insert_eq.
  - intros w2 aln. eexists. split.
    + unfold call. cbn [closure alignment world].
      rewrite RenameChromosomes_aln_fields. reflexivity.
    + cbn [fst RNAME RNEXT FLAG POS CIGAR TAGS REFID].
      repeat split; auto using renameField_sentinel, renameField_other.
Qed.

(** ** Reference indices *)

Lemma int32_small z : - 2 ^ 31 <= z < 2 ^ 31 -> int32 z = z.
Proof. intros Hz. unfold int32. rewrite Z.mod_small; lia. Qed.

Lemma refidLoop_absent h sq index dictTable k :
  k ∉ names h sq -> refidLoop h sq index dictTable !! k = dictTable !! k.
Proof.
  revert index dictTable. induction sq as [|entry rest IH]; intros index dictTable Hk; [done|].
  cbn [refidLoop]. change (names h (entry :: rest)) with (entryGet h entry "SN" :: names h rest) in Hk.
  apply not_elem_of_cons in Hk as [Hne Hk].
  rewrite IH by done. by rewrite lookup_insert_ne.
Qed.

Lemma refidLoop_unique h sq index dictTable n entry :
  NoDup (names h sq) ->
  sq !! n = Some entry ->
  refidLoop h sq index dictTable !! entryGet h entry "SN" =
  Some (int32 (index + Z.of_nat n)).
Proof.
  revert index dictTable n. induction sq as [|first rest IH]; intros index dictTable n Hnd Hn;
    [done|].
  change (names h (first :: rest)) with (entryGet h first "SN" :: names h rest) in Hnd.
  apply NoDup_cons in Hnd as [Hnotin Hnd]. cbn [refidLoop].
  destruct n as [|n]; simpl in Hn.
  - injection Hn as ->. rewrite refidLoop_absent by done.
    rewrite lookup_insert_eq. do 2 f_equal. lia.
  - rewrite (IH _ _ n) by done. do 2 f_equal. lia.
Qed.

(** C5: the alignment filter of [AddREFID] keeps every alignment and
    sets its REFID to -1 when no SQ entry is named RNAME, and to the
    index of the SQ entry named RNAME otherwise (names being unique in
    SQ and indices fitting the 32-bit REFID). *)
Theorem AddREFID_sets_index (w : World) :
  exists f,
    AddREFID w = Some (w, Some f) /\
    forall (w2 : World) (aln : Alignment),
      exists value,
        call (mkRecordState f w2 aln) =
          Some (true, mkRecordState f w2 (SetREFID aln value)) /\
        (RNAME aln ∉ names (heap w) (SQ (header w)) -> value = -1) /\
        (NoDup (names (heap w) (SQ (header w))) ->
         Z.of_nat (length (SQ (header w))) <= 2 ^ 31 ->
         forall (n : nat) (entry : nat),
           SQ (header w) !! n = Some entry ->
           entryGet (heap w) entry "SN" = RNAME aln ->
           value = Z.of_nat n).
Proof.
  eexists. split; [reflexivity|]. intros w2 aln. eexists. split; [reflexivity|].
  cbn [alignment]. split.
  - intros Habsent. by rewrite refidLoop_absent, lookup_empty.
  - intros Hnd Hlen n entry Hn Hsn. rewrite <- Hsn.
    rewrite (refidLoop_unique _ _ _ _ n entry) by done.
    apply lookup_lt_Some in Hn. rewrite int32_small; lia.
Qed.

(** ** Strict exactness *)

Lemma tagDiffers_false tags key expected :
  tagDiffers tags key expected = Some false <->
  SmallMap_Get tags key = Some (VInt32 expected).
Proof.
  unfold tagDiffers. destruct (SmallMap_Get tags key) as [[c|i|b|s|bs]|]; simpl; try done.
  destruct (Z.eqb_spec i expected) as [->|Hne]; simpl; [done|].
  split; [done | intros [=]; done].
Qed.

Lemma tagDiffers_typed tags key expected :
  (forall v, SmallMap_Get tags key = Some v -> exists i, v = VInt32 i) ->
  exists b, tagDiffers tags key expected = Some b.
Proof.
  intros Htyped. unfold tagDiffers.
  destruct (SmallMap_Get tags key) as [v|]; [|by eexists].
  destruct (Htyped v eq_refl) as [i ->]. by eexists.
Qed.

Lemma tagDiffers_panics tags key expected v :
  SmallMap_Get tags key = Some v -> (forall i, v <> VInt32 i) ->
  tagDiffers tags key expected = None.
Proof.
  intros Hget Hv. unfold tagDiffers. rewrite Hget.
  destruct v; try done. by destruct (Hv i).
Qed.

Lemma FilterNonExactMappingReadsStrict_aln_true aln :
  FilterNonExactMappingReadsStrict_aln aln = Some true <-> exactTags (TAGS aln).
Proof.
  unfold exactTags. rewrite <- !tagDiffers_false.
  unfold FilterNonExactMappingReadsStrict_aln, returnFalseIf.
  destruct (tagDiffers (TAGS aln) X0 1) as [[]|]; [by split; [|intros []]| |by split; [|intros []]].
  destruct (tagDiffers (TAGS aln) X1 0) as [[]|];
    [by split; [|intros (?&?&?)]| |by split; [|intros (?&?&?)]].
  destruct (tagDiffers (TAGS aln) XM 0) as [[]|];
    [by split; [|intros (?&?&?&?)]| |by split; [|intros (?&?&?&?)]].
  destruct (tagDiffers (TAGS aln) XO 0) as [[]|];
    [by split; [|intros (?&?&?&?&?)]| |by split; [|intros (?&?&?&?&?)]].
  destruct (tagDiffers (TAGS aln) XG 0) as [[]|];
    [by split; [|intros (?&?&?&?&?)]| |by split; [|intros (?&?&?&?&?)]].
  done.
Qed.

Lemma FilterNonExactMappingReadsStrict_aln_total aln :
  typedTags (TAGS aln) -> exists b, FilterNonExactMappingReadsStrict_aln aln = Some b.
Proof.
  intros Htyped. unfold FilterNonExactMappingReadsStrict_aln, returnFalseIf.
  assert (forall key expected, key ∈ exactnessKeys ->
            exists b, tagDiffers (TAGS aln) key expected = Some b) as Hd.
  { intros key expected Hkey. apply tagDiffers_typed. intros v. by apply Htyped. }
  unfold exactnessKeys in Hd.
  destruct (Hd X0 1) as [[] ->]; [apply list_elem_of_In; simpl; tauto | by eexists |].
  destruct (Hd X1 0) as [[] ->]; [apply list_elem_of_In; simpl; tauto | by eexists |].
  destruct (Hd XM 0) as [[] ->]; [apply list_elem_of_In; simpl; tauto | by eexists |].
  destruct (Hd XO 0) as [[] ->]; [apply list_elem_of_In; simpl; tauto | by eexists |].
  destruct (Hd XG 0) as [[] ->]; [apply list_elem_of_In; simpl; tauto | by eexists | by eexists].
Qed.

Lemma call_FilterNonExactMappingReadsStrict w aln :
  call (mkRecordState FilterNonExactMappingReadsStrict_closure w aln) =
  match FilterNonExactMappingReadsStrict_aln aln with
  | Some b => Some (b, mkRecordState FilterNonExactMappingReadsStrict_closure w aln)
  | None => None
  end.
Proof. reflexivity. Qed.

(** C6: the alignment filter of [FilterNonExactMappingReadsStrict]
    returns true exactly when X0, X1, XM, XO and XG are all present
    with the values 1, 0, 0, 0, 0; on an alignment whose five fields
    are 32-bit integers where present, it returns false whenever one
    of them is absent or has another value. *)
Theorem FilterNonExactMappingReadsStrict_exact (w : World) :
  exists f,
    FilterNonExactMappingReadsStrict w = Some (w, Some f) /\
    forall (w2 : World) (aln : Alignment),
      (call (mkRecordState f w2 aln) = Some (true, mkRecordState f w2 aln) <->
       exactTags (TAGS aln)) /\
      (typedTags (TAGS aln) -> ~ exactTags (TAGS aln) ->
       call (mkRecordState f w2 aln) = Some (false, mkRecordState f w2 aln)) /\
      (typedTags (TAGS aln) ->
       forall key, key ∈ exactnessKeys -> SmallMap_Get (TAGS aln) key = None ->
       call (mkRecordState f w2 aln) = Some (false, mkRecordState f w2 aln)).
Proof.
  eexists. split; [reflexivity|]. intros w2 aln.
  rewrite call_FilterNonExactMappingReadsStrict.
  assert (typedTags (TAGS aln) -> ~ exactTags (TAGS aln) ->
          FilterNonExactMappingReadsStrict_aln aln = Some false) as Hfalse.
  { intros Htyped Hne.
    destruct (FilterNonExactMappingReadsStrict_aln_total aln Htyped) as [[] Hb]; [|done].
    by apply FilterNonExactMappingReadsStrict_aln_true in Hb. }
  split; [|split].
  - rewrite <- FilterNonExactMappingReadsStrict_aln_true.
    destruct (FilterNonExactMappingReadsStrict_aln aln) as [[]|]; split; congruence.
  - intros Htyped Hne. by rewrite Hfalse.
  - intros Htyped key Hkey Hnone. rewrite Hfalse; [done | done |].
    unfold exactTags, exactnessKeys in *. intros (H0 & H1 & HM & HO & HG).
    repeat (apply elem_of_cons in Hkey as [->|Hkey]; [congruence|]).
    by apply elem_of_nil in Hkey.
Qed.

(** C10: the alignment filter of [FilterNonExactMappingReadsStrict]
    returns a boolean on every alignment whose X0, X1, XM, XO and XG
    fields are 32-bit integers where present, and panics on every
    alignment whose X0 field is present with a value of another type;
    such alignments exist. *)
Theorem FilterNonExactMappingReadsStrict_partial (w : World) :
  exists f,
    FilterNonExactMappingReadsStrict w = Some (w, Some f) /\
    (forall (w2 : World) (aln : Alignment),
       typedTags (TAGS aln) ->
       exists b, call (mkRecordState f w2 aln) = Some (b, mkRecordState f w2 aln)) /\
    (forall (w2 : World) (aln : Alignment) (v : TagValue),
       SmallMap_Get (TAGS aln) X0 = Some v ->
       (forall i, v <> VInt32 i) ->
       call (mkRecordState f w2 aln) = None) /\
    (forall (w2 : World), exists aln, call (mkRecordState f w2 aln) = None).
Proof.
  eexists. split; [reflexivity|]. split; [|split].
  - intros w2 aln Htyped. rewrite call_FilterNonExactMappingReadsStrict.
    destruct (FilterNonExactMappingReadsStrict_aln_total aln Htyped) as [b ->]. by eexists.
  - intros w2 aln v Hget Hv. rewrite call_FilterNonExactMappingReadsStrict.
    unfold FilterNonExactMappingReadsStrict_aln.
    by rewrite (tagDiffers_panics _ _ _ v).
  - intros w2. by exists (mkAlignment 0 1 "chr1" "=" "10M" [(X0, VString "1")] 0).
Qed.

(** ** Frame of the record phase *)

Lemma keepsFrame_ret {A : Type} (a : A) : keepsFrame (ret a).
Proof. intros s a' s' [= <- <-]. done. Qed.

Lemma keepsFrame_panic {A : Type} : keepsFrame (@panic A).
Proof. intros s a s' Hrun. discriminate Hrun. Qed.

Lemma keepsFrame_bind {A B : Type} (m : Action A) (k : A -> Action B) :
  keepsFrame m -> (forall a, keepsFrame (k a)) -> keepsFrame (bind m k).
Proof.
  intros Hm Hk s b s'' Hrun. unfold bind in Hrun.
  destruct (m s) as [[a s']|] eqn:Hfirst; [|done].
  destruct (Hm _ _ _ Hfirst) as [Hc Hw]. destruct (Hk a _ _ _ Hrun) as [Hc' Hw'].
  split; congruence.
Qed.

Lemma keepsFrame_readAln {A : Type} (field : Alignment -> A) : keepsFrame (readAln field).
Proof. intros s a s' [= <- <-]. done. Qed.

Lemma keepsFrame_writeAln (update : Alignment -> Alignment) : keepsFrame (writeAln update).
Proof. intros s a s' [= <- <-]. done. Qed.

Lemma keepsFrame_capturedDictTable : keepsFrame capturedDictTable.
Proof.
  intros s a s'. unfold capturedDictTable.
  destruct (closure s) eqn:Hclosure; try done. intros [= <- <-]. done.
Qed.

Lemma keepsFrame_capturedId : keepsFrame capturedId.
Proof.
  intros s a s'. unfold capturedId.
  destruct (closure s) eqn:Hclosure; try done. intros [= <- <-]. done.
Qed.

Lemma keepsFrame_capturedRefidTable : keepsFrame capturedRefidTable.
Proof.
  intros s a s'. unfold capturedRefidTable.
  destruct (closure s) eqn:Hclosure; try done. intros [= <- <-]. done.
Qed.

Lemma keepsFrame_if {A : Type} (c : bool) (m1 m2 : Action A) :
  keepsFrame m1 -> keepsFrame m2 -> keepsFrame (if c then m1 else m2).
Proof. by destruct c. Qed.

Lemma keepsFrame_tagCondition key expected : keepsFrame (tagCondition key expected).
Proof.
  apply keepsFrame_bind; [apply keepsFrame_readAln|]. intros tags.
  destruct (SmallMap_Get tags key) as [x|]; [|apply keepsFrame_ret].
  destruct (assertInt32 x); [apply keepsFrame_ret | apply keepsFrame_panic].
Qed.

(** One step of a frame proof: the statement at the head of the
    program keeps the frame, and so must the rest. *)
Ltac frame_step :=
  first
    [ apply keepsFrame_ret
    | apply keepsFrame_panic
    | apply keepsFrame_readAln
    | apply keepsFrame_writeAln
    | apply keepsFrame_capturedDictTable
    | apply keepsFrame_capturedId
    | apply keepsFrame_capturedRefidTable
    | apply keepsFrame_tagCondition
    | apply keepsFrame_if
    | apply keepsFrame_bind; [|intros ?] ].

Lemma keepsFrame_ReplaceReferenceSequenceDictionary_body :
  keepsFrame ReplaceReferenceSequenceDictionary_body.
Proof. unfold ReplaceReferenceSequenceDictionary_body. repeat frame_step. Qed.

Lemma keepsFrame_FilterUnmappedReads_body : keepsFrame FilterUnmappedReads_body.
Proof. unfold FilterUnmappedReads_body. repeat frame_step. Qed.

Lemma keepsFrame_FilterUnmappedReadsStrict_body : keepsFrame FilterUnmappedReadsStrict_body.
Proof. unfold FilterUnmappedReadsStrict_body. repeat frame_step. Qed.

Lemma keepsFrame_FilterNonExactMappingReads_body : keepsFrame FilterNonExactMappingReads_body.
Proof. unfold FilterNonExactMappingReads_body. repeat frame_step. Qed.

Lemma keepsFrame_FilterNonExactMappingReadsStrict_body :
  keepsFrame FilterNonExactMappingReadsStrict_body.
Proof. unfold FilterNonExactMappingReadsStrict_body. repeat frame_step. Qed.

Lemma keepsFrame_FilterDuplicateReads_body : keepsFrame FilterDuplicateReads_body.
Proof. unfold FilterDuplicateReads_body. repeat frame_step. Qed.

Lemma keepsFrame_FilterOptionalReads_body : keepsFrame FilterOptionalReads_body.
Proof. unfold FilterOptionalReads_body. repeat frame_step. Qed.

Lemma keepsFrame_AddOrReplaceReadGroup_body : keepsFrame AddOrReplaceReadGroup_body.
Proof. unfold AddOrReplaceReadGroup_body. repeat frame_step. Qed.

Lemma keepsFrame_RenameChromosomes_body : keepsFrame RenameChromosomes_body.
Proof. unfold RenameChromosomes_body. repeat frame_step. Qed.

Lemma keepsFrame_AddREFID_body : keepsFrame AddREFID_body.
Proof. unfold AddREFID_body. repeat frame_step. Qed.

Lemma tagCondition_tagDiffers key expected s :
  tagCondition key expected s =
  match tagDiffers (TAGS (alignment s)) key expected with
  | Some c => Some (c, s)
  | None => None
  end.
Proof.
  unfold tagCondition, tagDiffers, bind, readAln.
  destruct (SmallMap_Get (TAGS (alignment s)) key) as [x|]; [|done].
  by destruct (assertInt32 x).
Qed.

(** The programs compute what [call] computes: the decision, the
    alignment and the panics of the filters are the same. *)
Lemma run_call (s : RecordState) : run s = call s.
Proof.
  destruct s as [f w aln]. destruct f; try reflexivity.
  - unfold run, call. cbn [closure alignment world].
    unfold FilterNonExactMappingReadsStrict_body, FilterNonExactMappingReadsStrict_aln,
      returnFalseIf, bind.
    rewrite tagCondition_tagDiffers. cbn [alignment].
    destruct (tagDiffers (TAGS aln) X0 1) as [[]|]; try reflexivity.
    rewrite tagCondition_tagDiffers. cbn [alignment].
    destruct (tagDiffers (TAGS aln) X1 0) as [[]|]; try reflexivity.
    rewrite tagCondition_tagDiffers. cbn [alignment].
    destruct (tagDiffers (TAGS aln) XM 0) as [[]|]; try reflexivity.
    rewrite tagCondition_tagDiffers. cbn [alignment].
    destruct (tagDiffers (TAGS aln) XO 0) as [[]|]; try reflexivity.
    rewrite tagCondition_tagDiffers. cbn [alignment].
    destruct (tagDiffers (TAGS aln) XG 0) as [[]|]; reflexivity.
  - unfold run, call. cbn [closure alignment world].
    unfold RenameChromosomes_body, RenameChromosomes_aln, bind, readAln, writeAln, ret.
    cbn [alignment closure world].
    destruct (negb (String.eqb (RNAME aln) "=") && negb (String.eqb (RNAME aln) "*"));
      cbn [alignment closure world RNEXT withRNAME];
      destruct (negb (String.eqb (RNEXT aln) "=") && negb (String.eqb (RNEXT aln) "*"));
      reflexivity.
Qed.

(** C8: a call of any alignment filter of this module on any alignment
    leaves the closure's captured variables (the membership table, the
    name-to-index table, the read-group ID) and the world of the header
    phase (the header and the maps it refers to) as they were: every
    statement of every function literal reads a captured variable or a
    field of the alignment, or writes the alignment. *)
Theorem run_keeps_frame (s s' : RecordState) (b : bool) :
  run s = Some (b, s') ->
  closure s' = closure s /\ world s' = world s /\ call s = Some (b, s').
Proof.
  intros Hrun.
  assert (closure s' = closure s /\ world s' = world s) as [Hclosure Hworld].
  { revert Hrun. unfold run. destruct (closure s) eqn:Hf; rewrite <- ?Hf; intros Hrun.
    - exact (keepsFrame_ReplaceReferenceSequenceDictionary_body _ _ _ Hrun).
    - exact (keepsFrame_FilterUnmappedReads_body _ _ _ Hrun).
    - exact (keepsFrame_FilterUnmappedReadsStrict_body _ _ _ Hrun).
    - exact (keepsFrame_FilterNonExactMappingReads_body _ _ _ Hrun).
    - exact (keepsFrame_FilterNonExactMappingReadsStrict_body _ _ _ Hrun).
    - exact (keepsFrame_FilterDuplicateReads_body _ _ _ Hrun).
    - exact (keepsFrame_FilterOptionalReads_body _ _ _ Hrun).
    - exact (keepsFrame_AddOrReplaceReadGroup_body _ _ _ Hrun).
    - exact (keepsFrame_RenameChromosomes_body _ _ _ Hrun).
    - exact (keepsFrame_AddREFID_body _ _ _ Hrun). }
  split; [exact Hclosure|]. split; [exact Hworld|]. by rewrite <- run_call.
Qed.

Lemma run_keeps_frame_witness :
  run (mkRecordState (AddREFID_closure {["chrA" := 0]}) refidWorld (read "chrA" [])) =
    Some (true, mkRecordState (AddREFID_closure {["chrA" := 0]}) refidWorld
                  (SetREFID (read "chrA" []) 0)) /\
  closure (mkRecordState (AddREFID_closure {["chrA" := 0]}) refidWorld
             (SetREFID (read "chrA" []) 0)) =
    AddREFID_closure {["chrA" := 0]} /\
  world (mkRecordState (AddREFID_closure {["chrA" := 0]}) refidWorld
           (SetREFID (read "chrA" []) 0)) =
    refidWorld.
Proof.
  split; [reflexivity|].
  destruct (run_keeps_frame
              (mkRecordState (AddREFID_closure {["chrA" := 0]}) refidWorld (read "chrA" []))
              (mkRecordState (AddREFID_closure {["chrA" := 0]}) refidWorld
                 (SetREFID (read "chrA" []) 0))
              true) as (Hclosure & Hworld & _); [reflexivity|].
  split; [exact Hclosure | exact Hworld].
Defined.

(** ** The suffix of the collision loop *)

Lemma formatBits_S fuel u base acc :
  formatBits (S fuel) u base acc =
  if u <? base then String (digit u) acc
  else formatBits fuel (u / base) base (String (digit (u mod base)) acc).
Proof. reflexivity. Qed.

Lemma digit_hex d : 0 <= d < 16 -> isHexDigit (digit d) = true.
Proof.
  intros Hd.
  assert (d = 0 \/ d = 1 \/ d = 2 \/ d = 3 \/ d = 4 \/ d = 5 \/ d = 6 \/ d = 7 \/
          d = 8 \/ d = 9 \/ d = 10 \/ d = 11 \/ d = 12 \/ d = 13 \/ d = 14 \/ d = 15)
    as Hcases by lia.
  repeat (destruct Hcases as [->|Hcases]; [reflexivity|]). by subst.
Qed.

Lemma FormatInt_16 r :
  0 <= r < 0x10000 ->
  FormatInt r 16 =
  if r <? 0x10 then String (digit r) ""
  else if r <? 0x100 then String (digit (r / 16)) (String (digit (r mod 16)) "")
  else if r <? 0x1000 then
    String (digit (r / 16 / 16))
      (String (digit (r / 16 mod 16)) (String (digit (r mod 16)) ""))
  else
    String (digit (r / 16 / 16 / 16))
      (String (digit (r / 16 / 16 mod 16))
         (String (digit (r / 16 mod 16)) (String (digit (r mod 16)) ""))).
Proof.
  intros Hr. unfold FormatInt.
  destruct (Z.ltb_spec r 0) as [?|_]; [lia|].
  change 64%nat with (S (S (S (S 60)))). rewrite formatBits_S.
  destruct (Z.ltb_spec r 16) as [?|H1]; [done|].
  rewrite formatBits_S.
  destruct (Z.ltb_spec (r / 16) 16) as [H2|H2]; destruct (Z.ltb_spec r 256) as [H2'|H2'];
    try (exfalso; Z.div_mod_to_equations; lia); [done|].
  rewrite formatBits_S.
  destruct (Z.ltb_spec (r / 16 / 16) 16) as [H3|H3];
    destruct (Z.ltb_spec r 4096) as [H3'|H3'];
    try (exfalso; Z.div_mod_to_equations; lia); [done|].
  rewrite formatBits_S.
  destruct (Z.ltb_spec (r / 16 / 16 / 16) 16) as [H4|H4]; [done|].
  exfalso; Z.div_mod_to_equations; lia.
Qed.

Lemma FormatInt_16_length r :
  0 <= r < 0x10000 -> String.length (FormatInt r 16) = hexWidth r.
Proof.
  intros Hr. rewrite FormatInt_16 by done. unfold hexWidth.
  destruct (r <? 0x10); [done|]. destruct (r <? 0x100); [done|].
  by destruct (r <? 0x1000).
Qed.

Lemma FormatInt_16_hex r :
  0 <= r < 0x10000 ->
  forallb isHexDigit (list_ascii_of_string (FormatInt r 16)) = true.
Proof.
  intros Hr. rewrite FormatInt_16 by done.
  destruct (Z.ltb_spec r 0x10); [|destruct (Z.ltb_spec r 0x100); [|destruct (Z.ltb_spec r 0x1000)]];
    cbn [list_ascii_of_string forallb];
    rewrite ?andb_true_iff; repeat split;
    try apply digit_hex; Z.div_mod_to_equations; lia.
Qed.

(** C9, the claim as stated: the suffix has the same number of digits
    for every draw.  The draws 0 and 0xffff give suffixes of one and
    four digits. *)
Lemma FormatInt_suffix_not_fixed_width :
  ~ exists width : nat,
      forall r, 0 <= r < 0x10000 -> String.length (FormatInt r 16) = width.
Proof.
  intros [width Hwidth].
  pose proof (Hwidth 0 ltac:(lia)) as H0.
  pose proof (Hwidth 0xffff ltac:(lia)) as H1.
  vm_compute in H0, H1. congruence.
Qed.

Lemma digit_value d : 0 <= d < 16 -> hexValue (digit d) = Some d.
Proof.
  intros Hd.
  assert (d = 0 \/ d = 1 \/ d = 2 \/ d = 3 \/ d = 4 \/ d = 5 \/ d = 6 \/ d = 7 \/
          d = 8 \/ d = 9 \/ d = 10 \/ d = 11 \/ d = 12 \/ d = 13 \/ d = 14 \/ d = 15)
    as Hcases by lia.
  repeat (destruct Hcases as [->|Hcases]; [reflexivity|]). by subst.
Qed.

Lemma digit_zero d : 0 <= d < 16 -> digit d = "0"%char -> d = 0.
Proof.
  intros Hd Hzero. pose proof (digit_value d Hd) as Hvalue.
  rewrite Hzero in Hvalue. by injection Hvalue.
Qed.

(** The digits are those of the draw: reading the suffix back as a
    hexadecimal numeral gives the draw. *)
Lemma FormatInt_16_parse r :
  0 <= r < 0x10000 -> parseHex (FormatInt r 16) = Some r.
Proof.
  intros Hr. rewrite FormatInt_16 by done.
  destruct (Z.ltb_spec r 0x10) as [H1|H1];
    [|destruct (Z.ltb_spec r 0x100) as [H2|H2];
      [|destruct (Z.ltb_spec r 0x1000) as [H3|H3]]];
    cbn [parseHex parseHexFrom];
    repeat (rewrite digit_value by (Z.div_mod_to_equations; lia); cbn [parseHexFrom]);
    f_equal; Z.div_mod_to_equations; lia.
Qed.

(** No leading zero: the first digit is 0 only for the draw 0, whose
    suffix is the single digit 0. *)
Lemma FormatInt_16_leading r c rest :
  0 <= r < 0x10000 -> FormatInt r 16 = String c rest ->
  c = "0"%char -> r = 0 /\ rest = "".
Proof.
  intros Hr. rewrite FormatInt_16 by done.
  destruct (Z.ltb_spec r 0x10) as [H1|H1];
    [|destruct (Z.ltb_spec r 0x100) as [H2|H2];
      [|destruct (Z.ltb_spec r 0x1000) as [H3|H3]]];
    intros [= <- <-] Hzero; apply digit_zero in Hzero;
    try (Z.div_mod_to_equations; lia).
  done.
Qed.

(** C9, amended: when the candidate ID collides, the loop appends the
    lower-case hexadecimal representation of the draw without leading
    zeros: the suffix reads back as the draw, starts with 0 only when
    it is the single digit 0 of the draw 0, and so has between one and
    four hexadecimal digits, as many as the draw needs. *)
Theorem collisionLoop_suffix (h : gmap nat (gmap string string)) (pg : list nat)
    (r : Z) (draws : list Z) (id : string) :
  0 <= r < 0x10000 ->
  0 <= Find pg (fun entry => String.eqb (entryGet h entry "ID") id) ->
  collisionLoop h pg (r :: draws) id = collisionLoop h pg draws (id +:+ FormatInt r 16) /\
  parseHex (FormatInt r 16) = Some r /\
  (forall c rest, FormatInt r 16 = String c rest -> c = "0"%char -> r = 0 /\ rest = "") /\
  String.length (FormatInt r 16) = hexWidth r /\
  (1 <= hexWidth r <= 4)%nat /\
  forallb isHexDigit (list_ascii_of_string (FormatInt r 16)) = true.
Proof.
  intros Hr Hcollides. split; [|split; [|split; [|split; [|split]]]].
  - cbn [collisionLoop]. by rewrite (proj2 (Z.leb_le _ _) Hcollides).
  - by apply FormatInt_16_parse.
  - intros c rest. by apply FormatInt_16_leading.
  - by apply FormatInt_16_length.
  - unfold hexWidth. destruct (r <? 0x10); [lia|]. destruct (r <? 0x100); [lia|].
    destruct (r <? 0x1000); lia.
  - by apply FormatInt_16_hex.
Qed.

Lemma collisionLoop_suffix_witness :
  collisionLoop (heap collidingWorld) (PG (header collidingWorld)) [0x1f] "a" =
    Some "a1f" /\
  parseHex (FormatInt 0x1f 16) = Some 0x1f /\
  String.length (FormatInt 0x1f 16) = 2%nat.
Proof.
  destruct (collisionLoop_suffix (heap collidingWorld) (PG (header collidingWorld))
              0x1f [] "a") as (Hloop & Hparse & _ & Hlen & _ & _).
  - lia.
  - vm_compute. discriminate.
  - split; [rewrite Hloop; reflexivity|].
    split; [exact Hparse | rewrite Hlen; reflexivity].
Defined.

(** ** Program records *)

Lemma entryGet_entrySet_ne h h' entry k v k' :
  entrySet h entry k v = Some h' -> k <> k' ->
  entryGet h' entry k' = entryGet h entry k'.
Proof.
  unfold entrySet, entryGet. destruct (h !! entry) as [m|] eqn:Hm; [|done].
  intros [= <-] Hne. rewrite lookup_insert_eq. unfold index.
  by rewrite lookup_insert_ne.
Qed.

Lemma entryGet_entrySet_eq h h' entry k v :
  entrySet h entry k v = Some h' -> entryGet h' entry k = v.
Proof.
  unfold entrySet, entryGet. destruct (h !! entry) as [m|] eqn:Hm; [|done].
  intros [= <-]. rewrite lookup_insert_eq. unfold index. by rewrite lookup_insert_eq.
Qed.

Lemma entrySet_other h h' entry k v other :
  entrySet h entry k v = Some h' -> other <> entry -> h' !! other = h !! other.
Proof.
  unfold entrySet. destruct (h !! entry) as [m|]; [|done].
  intros [= <-] Hne. by rewrite lookup_insert_ne.
Qed.

(** Whatever the collision loop computes, the record that is appended
    is [newPG] with the ID it came with: the local [id] is not stored. *)
Lemma AddPGLine_appends newPG draws w w' f :
  AddPGLine newPG draws w = Some (w', f) ->
  f = None /\
  PG (header w') = PG (header w) ++ [newPG] /\
  entryGet (heap w') newPG "ID" = entryGet (heap w) newPG "ID" /\
  (forall other, other <> newPG -> heap w' !! other = heap w !! other) /\
  match tailLoop (heap w) (PG (header w)) (PG (header w)) with
  | Some nextID => entryGet (heap w') newPG "PP" = nextID
  | None => heap w' = heap w
  end.
Proof.
  unfold AddPGLine.
  destruct (collisionLoop _ _ _ _) as [id|]; [|done].
  destruct (tailLoop _ _ _) as [nextID|].
  - destruct (entrySet _ _ _ _) as [h'|] eqn:Hset; [|done].
    intros [= <- <-]. cbn [heap header PG withPG].
    split; [done|]. split; [done|].
    split; [by apply (entryGet_entrySet_ne _ _ _ _ _ _ Hset)|].
    split; [intros other; by apply (entrySet_other _ _ _ _ _ _ Hset)|].
    by apply (entryGet_entrySet_eq _ _ _ _ _ Hset).
  - intros [= <- <-]. done.
Qed.

(** When the ID of [newPG] is not taken and [newPG] is an allocated
    map, the header phase returns for every sequence of draws. *)
Lemma AddPGLine_fresh newPG draws w m :
  heap w !! newPG = Some m ->
  Find (PG (header w))
    (fun entry => String.eqb (entryGet (heap w) entry "ID") (entryGet (heap w) newPG "ID")) < 0 ->
  exists w', AddPGLine newPG draws w = Some (w', None).
Proof.
  intros Hm Hfresh. unfold AddPGLine.
  assert (forall id, Find (PG (header w))
            (fun entry => String.eqb (entryGet (heap w) entry "ID") id) < 0 ->
          collisionLoop (heap w) (PG (header w)) draws id = Some id) as Hloop.
  { intros id Hid. destruct draws; cbn [collisionLoop];
      by rewrite (proj2 (Z.leb_gt _ _) Hid). }
  rewrite Hloop by done.
  destruct (tailLoop _ _ _); [|by eexists].
  unfold entrySet. rewrite Hm. by eexists.
Qed.

(** C2 on a colliding ID: the header has one program record "a" and a
    record "a" is added.  The loop draws 0x1f and computes the unused
    ID "a1f", but the record appended still carries "a": the two
    records of PG have the same ID.  A record "b" added next finds no
    tail, both IDs being named as a PP, and gets no PP. *)
Theorem AddPGLine_collision_duplicates_ID :
  collisionLoop (heap collidingWorld) (PG (header collidingWorld)) [0x1f] "a" = Some "a1f" /\
  exists w',
    AddPGLine 11%nat [0x1f] collidingWorld = Some (w', None) /\
    PG (header w') = [10%nat; 11%nat] /\
    programIDs (heap w') (PG (header w')) = ["a"; "a"] /\
    ~ NoDup (programIDs (heap w') (PG (header w'))) /\
    entryGet (heap w') 11%nat "PP" = "a" /\
    exists w'',
      AddPGLine 12%nat [] w' = Some (w'', None) /\
      PG (header w'') = [10%nat; 11%nat; 12%nat] /\
      entryLookup (heap w'') 12%nat "PP" = None.
Proof.
  split; [reflexivity|]. eexists. split; [reflexivity|].
  split; [reflexivity|]. split; [reflexivity|]. split; [|split; [reflexivity|]].
  - cbn. intros Hnd. apply NoDup_cons in Hnd as [Hnotin _].
    apply Hnotin. by left.
  - eexists. split; [reflexivity|]. split; reflexivity.
Qed.

(** ** Examples *)

(** Old SQ chr1, chr2, chr3: the same order keeps "coordinate", and
    chr2, chr1, chr3 gives "unknown". *)
Example sorting_order_kept :
  match ReplaceReferenceSequenceDictionary [0%nat; 1%nat; 2%nat] sortedWorld with
  | Some (w', _) => sortingOrder (header w')
  | None => ""
  end = "coordinate".
Proof. reflexivity. Qed.

Example sorting_order_downgraded :
  match ReplaceReferenceSequenceDictionary [1%nat; 0%nat; 2%nat] sortedWorld with
  | Some (w', _) => sortingOrder (header w')
  | None => ""
  end = "unknown".
Proof. reflexivity. Qed.

(** SQ chrA, chrB: REFID 0 for chrA, 1 for chrB, -1 for another name. *)
Example refid_chrA_chrB :
  match AddREFID refidWorld with
  | Some (_, Some f) =>
      map (fun rname => REFID <$> mutated f refidWorld (read rname []))
        ["chrA"; "chrB"; "chrM"; "*"]
  | _ => []
  end = [Some 0; Some 1; Some (-1); Some (-1)].
Proof. reflexivity. Qed.

(** An SQ that lists the same map twice has its name prefixed twice:
    the entries have to be distinct maps for C4. *)
Example rename_aliased_entry :
  match RenameChromosomes
          (mkWorld (heap plainWorld) (withSQ (header plainWorld) [0%nat; 0%nat])) with
  | Some (w', _) => entryLookup (heap w') 0%nat "SN"
  | None => None
  end = Some "chrchr1".
Proof. reflexivity. Qed.

(** A record with a fresh ID is appended after the tail of the chain. *)
Example AddPGLine_fresh_ID :
  match AddPGLine 12%nat [] collidingWorld with
  | Some (w', _) =>
      (PG (header w'), programIDs (heap w') (PG (header w')),
       entryGet (heap w') 12%nat "PP")
  | None => ([], [], "")
  end = ([10%nat; 12%nat], ["a"; "b"], "a").
Proof. reflexivity. Qed.

(** ** The theorems at concrete inputs *)

Lemma ReplaceReferenceSequenceDictionary_sorting_order_witness :
  sortingOrder (header sortedWorld) = "coordinate" /\
  ~ StronglySorted Z.lt
      (matchedIndices (heap sortedWorld) (SQ (header sortedWorld)) [1%nat; 0%nat; 2%nat]) /\
  exists hd' f,
    ReplaceReferenceSequenceDictionary [1%nat; 0%nat; 2%nat] sortedWorld =
      Some (mkWorld (heap sortedWorld)
              (withSQ (withHD (header sortedWorld) hd') [1%nat; 0%nat; 2%nat]), Some f) /\
    index hd' "SO" = "unknown".
Proof.
  assert (~ StronglySorted Z.lt
            (matchedIndices (heap sortedWorld) (SQ (header sortedWorld))
               [1%nat; 0%nat; 2%nat])) as Hunsorted.
  { assert (matchedIndices (heap sortedWorld) (SQ (header sortedWorld))
              [1%nat; 0%nat; 2%nat] = [1; 0; 2]) as -> by (vm_compute; reflexivity).
    intros Hs. apply StronglySorted_inv in Hs as [_ Hall].
    apply Forall_cons in Hall as [Hlt _]. lia. }
  split; [reflexivity|]. split; [exact Hunsorted|].
  destruct (ReplaceReferenceSequenceDictionary_sorting_order sortedWorld
              [1%nat; 0%nat; 2%nat]) as (hd' & f & Hrun & Hcoordinate & _).
  exists hd', f. split; [exact Hrun|].
  destruct (Hcoordinate eq_refl) as (_ & Hunknown & _).
  exact (proj2 (Hunknown Hunsorted)).
Defined.

Lemma ReplaceReferenceSequenceDictionary_replaces_and_filters_witness :
  exists w' f,
    ReplaceReferenceSequenceDictionary [1%nat; 0%nat] sortedWorld = Some (w', Some f) /\
    SQ (header w') = [1%nat; 0%nat] /\
    exists b, decision f w' (read "chr1" []) = Some b /\ b = true.
Proof.
  destruct (ReplaceReferenceSequenceDictionary_replaces_and_filters sortedWorld
              [1%nat; 0%nat]) as (w' & f & Hrun & Hsq & _ & Hcall).
  exists w', f. split; [exact Hrun|]. split; [exact Hsq|].
  destruct (Hcall w' (read "chr1" [])) as (b & Hb & Hiff).
  exists b. split; [unfold decision; by rewrite Hb|].
  apply Hiff. exists 0%nat. split; [|reflexivity].
  apply list_elem_of_In. simpl. tauto.
Defined.

Lemma RenameChromosomes_prefixes_witness :
  NoDup (SQ (header plainWorld)) /\
  exists h' f,
    RenameChromosomes plainWorld = Some (mkWorld h' (header plainWorld), Some f) /\
    entryLookup h' 1%nat "SN" = Some "chrX" /\
    exists aln',
      mutated f plainWorld (mkAlignment 0 1 "X" "=" "10M" [] 0) = Some aln' /\
      RNAME aln' = "chrX" /\ RNEXT aln' = "=".
Proof.
  assert (NoDup (SQ (header plainWorld))) as Hnd.
  { apply NoDup_ListNoDup. repeat constructor; simpl; intros H; lia. }
  split; [exact Hnd|].
  destruct (RenameChromosomes_prefixes plainWorld) as (h' & f & Hrun & Hheader & Hcall).
  exists h', f. split; [exact Hrun|]. split.
  - apply (proj1 (Hheader Hnd) 1%nat "X"); [|reflexivity].
    apply list_elem_of_In. simpl. tauto.
  - destruct (Hcall plainWorld (mkAlignment 0 1 "X" "=" "10M" [] 0))
      as (aln' & Hc & _ & _ & _ & Hrname & Hrnext & _).
    exists aln'. split; [unfold mutated; by rewrite Hc|]. split.
    + apply Hrname. split; discriminate.
    + apply Hrnext. by right.
Defined.

Lemma AddREFID_sets_index_witness :
  NoDup (names (heap refidWorld) (SQ (header refidWorld))) /\
  exists f,
    AddREFID refidWorld = Some (refidWorld, Some f) /\
    (exists value,
       mutated f refidWorld (read "chrB" []) = Some (SetREFID (read "chrB" []) value) /\
       value = 1) /\
    (exists value,
       mutated f refidWorld (read "chrM" []) = Some (SetREFID (read "chrM" []) value) /\
       value = -1).
Proof.
  assert (NoDup (names (heap refidWorld) (SQ (header refidWorld)))) as Hnd.
  { apply NoDup_ListNoDup. vm_compute. repeat constructor; simpl; intros H;
      repeat (destruct H as [H|H]; try discriminate H); done. }
  split; [exact Hnd|].
  destruct (AddREFID_sets_index refidWorld) as (f & Hrun & Hcall).
  exists f. split; [exact Hrun|]. split.
  - destruct (Hcall refidWorld (read "chrB" [])) as (value & Hc & _ & Hindex).
    exists value. split; [unfold mutated; by rewrite Hc|].
    apply (Hindex Hnd ltac:(simpl; lia) 1%nat 1%nat); reflexivity.
  - destruct (Hcall refidWorld (read "chrM" [])) as (value & Hc & Habsent & _).
    exists value. split; [unfold mutated; by rewrite Hc|].
    apply Habsent. vm_compute. intros Hin. apply list_elem_of_In in Hin. simpl in Hin.
    repeat (destruct Hin as [Hin|Hin]; try discriminate Hin). done.
Defined.

Lemma typedTags_fieldsWithoutXG : typedTags fieldsWithoutXG.
Proof.
  intros key v Hkey. unfold exactnessKeys in Hkey.
  repeat (apply elem_of_cons in Hkey as [->|Hkey];
          [vm_compute; intros [= <-]; by eexists|]).
  by apply elem_of_nil in Hkey.
Qed.

Lemma FilterNonExactMappingReadsStrict_exact_witness :
  typedTags fieldsWithoutXG /\
  SmallMap_Get fieldsWithoutXG XG = None /\
  exists f,
    FilterNonExactMappingReadsStrict sortedWorld = Some (sortedWorld, Some f) /\
    decision f sortedWorld (read "chr1" exactFields) = Some true /\
    decision f sortedWorld (read "chr1" fieldsWithoutXG) = Some false.
Proof.
  split; [exact typedTags_fieldsWithoutXG|]. split; [reflexivity|].
  destruct (FilterNonExactMappingReadsStrict_exact sortedWorld) as (f & Hrun & Hcall).
  exists f. split; [exact Hrun|]. split.
  - destruct (Hcall sortedWorld (read "chr1" exactFields)) as (Htrue & _).
    unfold decision. rewrite (proj2 Htrue); [reflexivity|].
    repeat split; reflexivity.
  - destruct (Hcall sortedWorld (read "chr1" fieldsWithoutXG)) as (_ & _ & Habsent).
    unfold decision.
    rewrite (Habsent typedTags_fieldsWithoutXG XG); [reflexivity | | reflexivity].
    apply list_elem_of_In. simpl. tauto.
Defined.

Lemma FilterUnmappedReads_excludes_witness :
  (exists f,
     FilterUnmappedReads sortedWorld = Some (sortedWorld, Some f) /\
     decision f sortedWorld (mkAlignment 0x4 1 "chr1" "=" "10M" [] 0) = Some false) /\
  (exists f,
     FilterUnmappedReadsStrict sortedWorld = Some (sortedWorld, Some f) /\
     decision f sortedWorld (mkAlignment 0 0 "chr1" "=" "10M" [] 0) = Some false).
Proof.
  destruct (FilterUnmappedReads_excludes sortedWorld)
    as ((f & Hrun & Hcall) & (g & Hrung & Hcallg)).
  split.
  - exists f. split; [exact Hrun|].
    destruct (Hcall sortedWorld (mkAlignment 0x4 1 "chr1" "=" "10M" [] 0)) as (b & Hb & Hiff).
    unfold decision. rewrite Hb. f_equal. apply Hiff. reflexivity.
  - exists g. split; [exact Hrung|].
    destruct (Hcallg sortedWorld (mkAlignment 0 0 "chr1" "=" "10M" [] 0)) as (b & Hb & Hiff).
    unfold decision. rewrite Hb. f_equal. apply Hiff. right. left. reflexivity.
Defined.

Lemma FilterNonExactMappingReadsStrict_partial_witness :
  typedTags fieldsWithoutXG /\
  exists f,
    FilterNonExactMappingReadsStrict sortedWorld = Some (sortedWorld, Some f) /\
    (exists b, decision f sortedWorld (read "chr1" fieldsWithoutXG) = Some b) /\
    decision f sortedWorld (read "chr1" [(X0, VString "1")]) = None.
Proof.
  split; [exact typedTags_fieldsWithoutXG|].
  destruct (FilterNonExactMappingReadsStrict_partial sortedWorld)
    as (f & Hrun & Htotal & Hpanic & _).
  exists f. split; [exact Hrun|]. split.
  - destruct (Htotal sortedWorld (read "chr1" fieldsWithoutXG) typedTags_fieldsWithoutXG)
      as (b & Hb).
    exists b. unfold decision. by rewrite Hb.
  - unfold decision.
    rewrite (Hpanic sortedWorld (read "chr1" [(X0, VString "1")]) (VString "1"));
      [reflexivity | reflexivity | discriminate].
Defined.

(** * Further properties of the filters *)

(** ** CIGAR and duplicate filters *)

Lemma ContainsAny_true s set :
  ContainsAny s set = true <-> exists c, c ∈ chars s /\ c ∈ chars set.
Proof.
  unfold chars. induction s as [|c rest IH]; cbn [ContainsAny list_ascii_of_string].
  - split; [done | intros (c & Hc & _); by apply elem_of_nil in Hc].
  - rewrite orb_true_iff, IH, existsb_exists. split.
    + intros [(x & Hx & Heq)|(x & Hx & Hset)].
      * apply Ascii.eqb_eq in Heq as <-. exists c. split; [by left | by apply list_elem_of_In].
      * exists x. split; [by right | done].
    + intros (x & [->|Hx]%elem_of_cons & Hset).
      * left. exists c. split; [by apply list_elem_of_In | apply Ascii.eqb_refl].
      * right. by exists x.
Qed.

(** X1: the alignment filter of [FilterNonExactMappingReads] keeps an
    alignment exactly when no character of its CIGAR is one of
    I, D, N, H, P, X and =. *)
Theorem FilterNonExactMappingReads_keeps (w : World) :
  exists f,
    FilterNonExactMappingReads w = Some (w, Some f) /\
    forall (w2 : World) (aln : Alignment),
      exists b,
        call (mkRecordState f w2 aln) = Some (b, mkRecordState f w2 aln) /\
        (b = true <-> forall c, c ∈ chars (CIGAR aln) -> c ∉ chars "IDNHPX=").
Proof.
  eexists. split; [reflexivity|]. intros w2 aln. eexists. split; [reflexivity|].
  cbn [alignment]. unfold FilterNonExactMappingReads_aln.
  rewrite negb_true_iff, <- not_true_iff_false, ContainsAny_true. split.
  - intros Hnone c Hc Hset. apply Hnone. by exists c.
  - intros Hall (c & Hc & Hset). by apply (Hall c).
Qed.

Lemma land_Duplicate_eqb flag :
  (Z.land flag Duplicate =? 0) = negb (Z.testbit flag DuplicateBit).
Proof.
  assert (Z.land flag Duplicate = if Z.testbit flag DuplicateBit then Duplicate else 0) as ->.
  { apply Z.bits_inj'. intros n Hn. rewrite Z.land_spec.
    change Duplicate with (2 ^ 10). rewrite Z.pow2_bits_eqb by lia.
    unfold DuplicateBit. destruct (Z.eqb_spec 10 n) as [<-|Hne].
    - rewrite andb_true_r. destruct (Z.testbit flag 10);
        [by rewrite Z.pow2_bits_eqb | by rewrite Z.bits_0].
    - rewrite andb_false_r. destruct (Z.testbit flag 10);
        [rewrite Z.pow2_bits_eqb by lia; symmetry; by apply Z.eqb_neq
        | by rewrite Z.bits_0]. }
  by destruct (Z.testbit flag DuplicateBit).
Qed.

(** X2: the alignment filter of [FilterDuplicateReads] excludes an
    alignment exactly when the Duplicate bit of FLAG is set, whatever
    the other bits are. *)
Theorem FilterDuplicateReads_excludes (w : World) :
  exists f,
    FilterDuplicateReads w = Some (w, Some f) /\
    forall (w2 : World) (aln : Alignment),
      exists b,
        call (mkRecordState f w2 aln) = Some (b, mkRecordState f w2 aln) /\
        (b = false <-> Z.testbit (FLAG aln) DuplicateBit = true).
Proof.
  eexists. split; [reflexivity|]. intros w2 aln. eexists. split; [reflexivity|].
  cbn [alignment]. unfold FilterDuplicateReads_aln. rewrite land_Duplicate_eqb.
  by destruct (Z.testbit (FLAG aln) DuplicateBit).
Qed.

(** ** Optional reads *)

(** X3: the header phase of [FilterOptionalReads] returns an alignment
    filter exactly when the header has an "@sr" user record; afterwards
    the header has no "@sr" record, every other user record is as
    before, and nothing else in the header or the heap has changed. *)
Theorem FilterOptionalReads_consumes_marker (w : World) :
  exists w' f,
    FilterOptionalReads w = Some (w', f) /\
    (is_Some f <-> is_Some (UserRecords (header w) !! "@sr")) /\
    UserRecords (header w') !! "@sr" = None /\
    (forall key, key <> "@sr" ->
       UserRecords (header w') !! key = UserRecords (header w) !! key) /\
    heap w' = heap w /\
    (HD (header w'), SQ (header w'), RG (header w'), PG (header w')) =
    (HD (header w), SQ (header w), RG (header w), PG (header w)).
Proof.
  unfold FilterOptionalReads.
  destruct (UserRecords (header w) !! "@sr") as [record|] eqn:Hsr;
    eexists _, _; (split; [reflexivity|]); cbn [heap header UserRecords withUserRecords].
  - split; [by split; eexists|]. split; [apply lookup_delete_eq|].
    split; [intros key Hkey; by rewrite lookup_delete_ne|done].
  - split; [split; intros [? ?]; done|]. done.
Qed.

(** X4: the marker is used up: a second run of [FilterOptionalReads]
    on the header left by a first run returns no alignment filter and
    leaves the world as it is. *)
Theorem FilterOptionalReads_second_run (w w' : World) (f : option AlignmentFilter) :
  FilterOptionalReads w = Some (w', f) ->
  FilterOptionalReads w' = Some (w', None).
Proof.
  unfold FilterOptionalReads.
  destruct (UserRecords (header w) !! "@sr") as [record|] eqn:Hsr.
  - intros [= <- <-]. cbn [heap header UserRecords withUserRecords].
    by rewrite lookup_delete_eq.
  - intros [= <- <-]. by rewrite Hsr.
Qed.

Lemma FilterOptionalReads_second_run_witness :
  exists w',
    FilterOptionalReads
      (mkWorld ∅ (mkHeader ∅ [] [] [] {["@sr" := []; "@co" := []]})) =
      Some (w', Some FilterOptionalReads_closure) /\
    FilterOptionalReads w' = Some (w', None).
Proof.
  eexists. split; [reflexivity|].
  apply (FilterOptionalReads_second_run
           (mkWorld ∅ (mkHeader ∅ [] [] [] {["@sr" := []; "@co" := []]}))
           _ (Some FilterOptionalReads_closure)).
  reflexivity.
Defined.


(** ** Read groups *)




(** ** More on program records *)

Lemma Find_negative_programIDs h pg id :
  Find pg (fun entry => String.eqb (entryGet h entry "ID") id) < 0 <->
  id ∉ programIDs h pg.
Proof.
  unfold Find. rewrite FindFrom_none by lia. unfold programIDs.
  rewrite Forall_forall. split.
  - intros Hall Hin. apply list_elem_of_In, in_map_iff in Hin as (entry & Hid & Hin).
    apply list_elem_of_In in Hin. specialize (Hall entry Hin).
    by apply String.eqb_neq in Hall.
  - intros Hnotin entry Hin. apply String.eqb_neq. intros Hid. apply Hnotin.
    apply list_elem_of_In, in_map_iff. exists entry. by rewrite <- list_elem_of_In.
Qed.

Lemma Find_negative_programPPs h pg id :
  Find pg (fun entry => String.eqb (entryGet h entry "PP") id) < 0 <->
  id ∉ programPPs h pg.
Proof.
  unfold Find. rewrite FindFrom_none by lia. unfold programPPs.
  rewrite Forall_forall. split.
  - intros Hall Hin. apply list_elem_of_In, in_map_iff in Hin as (entry & Hid & Hin).
    apply list_elem_of_In in Hin. specialize (Hall entry Hin).
    by apply String.eqb_neq in Hall.
  - intros Hnotin entry Hin. apply String.eqb_neq. intros Hid. apply Hnotin.
    apply list_elem_of_In, in_map_iff. exists entry. by rewrite <- list_elem_of_In.
Qed.

Lemma collisionLoop_unfold h pg draws id :
  collisionLoop h pg draws id =
  if bool_decide (id ∈ programIDs h pg) then
    match draws with
    | [] => None
    | r :: draws' => collisionLoop h pg draws' (id +:+ FormatInt r 16)
    end
  else Some id.
Proof.
  destruct (decide (id ∈ programIDs h pg)) as [Hin|Hnotin].
  - rewrite bool_decide_eq_true_2 by done.
    assert ((0 <=? Find pg (fun entry => String.eqb (entryGet h entry "ID") id)) = true)
      as Hc.
    { apply Z.leb_le. apply Z.nlt_ge. intros Hneg.
      by apply Find_negative_programIDs in Hneg. }
    destruct draws; cbn [collisionLoop]; by rewrite Hc.
  - rewrite bool_decide_eq_false_2 by done.
    apply Find_negative_programIDs, Z.leb_gt in Hnotin.
    destruct draws; cbn [collisionLoop]; by rewrite Hnotin.
Qed.

(** X7: when the collision loop of [AddPGLine] ends, its ID is not the
    ID of any record of PG, and it is the candidate followed by the
    hexadecimal forms of the draws the loop used, which are the first
    draws up to and including the first that gives a free ID; a
    candidate that is free at the start is returned as it is and no
    draw is used. *)
Theorem collisionLoop_fresh (h : gmap nat (gmap string string)) (pg : list nat)
    (draws : list Z) (id id' : string) :
  collisionLoop h pg draws id = Some id' ->
  (id' ∉ programIDs h pg) /\
  exists n : nat,
    (n <= length draws)%nat /\
    id' = withSuffixes id (take n draws) /\
    (forall m : nat, (m < n)%nat -> withSuffixes id (take m draws) ∈ programIDs h pg) /\
    (id ∉ programIDs h pg -> n = 0%nat /\ id' = id).
Proof.
  revert id. induction draws as [|r draws IH]; intros id; rewrite collisionLoop_unfold;
    case_bool_decide as Hin; try done.
  - intros [= <-]. split; [done|]. exists 0%nat. repeat split; try done; lia.
  - intros Hloop. destruct (IH _ Hloop) as (Hfresh & n & Hn & Hid & Hused & _).
    split; [done|]. exists (S n). split; [simpl; lia|]. split; [done|]. split; [|done].
    intros [|m] Hm; [done|]. cbn [take withSuffixes fold_left]. apply Hused. lia.
  - intros [= <-]. split; [done|]. exists 0%nat. repeat split; try done; simpl; lia.
Qed.

Lemma collisionLoop_fresh_witness :
  collisionLoop (heap collidingWorld) (PG (header collidingWorld)) [0x1f; 0x2] "a" =
    Some "a1f" /\
  "a1f" ∉ programIDs (heap collidingWorld) (PG (header collidingWorld)).
Proof.
  split; [reflexivity|].
  apply (collisionLoop_fresh (heap collidingWorld) (PG (header collidingWorld))
           [0x1f; 0x2] "a" "a1f").
  reflexivity.
Defined.

Lemma tailLoop_unfold h pg scan :
  tailLoop h pg scan =
  List.find (fun id => bool_decide (id ∉ programPPs h pg)) (programIDs h scan).
Proof.
  induction scan as [|entry rest IH]; [done|].
  cbn [tailLoop programIDs map List.find]. fold (programIDs h rest). rewrite <- IH.
  destruct (decide (entryGet h entry "ID" ∈ programPPs h pg)) as [Hin|Hnotin].
  - rewrite (bool_decide_eq_false_2 (_ ∉ _)) by (intros Hn; by apply Hn).
    assert ((Find pg (fun e => String.eqb (entryGet h e "PP") (entryGet h entry "ID")) <? 0)
            = false) as ->; [|done].
    apply Z.ltb_ge, Z.nlt_ge. intros Hneg. by apply Find_negative_programPPs in Hneg.
  - rewrite (bool_decide_eq_true_2 (_ ∉ _)) by done.
    by rewrite (proj2 (Z.ltb_lt _ _) (proj2 (Find_negative_programPPs _ _ _) Hnotin)).
Qed.

(** X8: the tail loop of [AddPGLine] returns the ID of the first record
    of PG that is the PP of no record of PG (the record itself
    included), and returns nothing exactly when every record's ID is
    the PP of some record. *)
Theorem tailLoop_first_unreferenced (h : gmap nat (gmap string string)) (pg : list nat) :
  match tailLoop h pg pg with
  | Some nextID =>
      exists (n : nat) (entry : nat),
        pg !! n = Some entry /\ entryGet h entry "ID" = nextID /\
        (nextID ∉ programPPs h pg) /\
        forall (m : nat) (earlier : nat),
          (m < n)%nat -> pg !! m = Some earlier ->
          entryGet h earlier "ID" ∈ programPPs h pg
  | None => forall entry, entry ∈ pg -> entryGet h entry "ID" ∈ programPPs h pg
  end.
Proof.
  rewrite tailLoop_unfold. generalize (programPPs h pg) as pps. intros pps.
  induction pg as [|first rest IH]; cbn [programIDs map List.find].
  - intros entry Hin. by apply elem_of_nil in Hin.
  - fold (programIDs h rest).
    destruct (decide (entryGet h first "ID" ∈ pps)) as [Hin|Hnotin].
    + rewrite bool_decide_eq_false_2 by (intros Hn; by apply Hn).
      destruct (List.find _ (programIDs h rest)) as [nextID|].
      * destruct IH as (n & entry & Hn & Hid & Hfree & Hearlier).
        exists (S n), entry. split; [done|]. split; [done|]. split; [done|].
        intros [|m] earlier Hm; simpl; [by intros [= <-]|].
        apply Hearlier. lia.
      * intros entry [->|Hrest]%elem_of_cons; [done | by apply IH].
    + rewrite bool_decide_eq_true_2 by done.
      exists 0%nat, first. split; [done|]. split; [done|]. split; [done|].
      intros m earlier Hm. lia.
Qed.

(** X9: on a header without program records [AddPGLine] makes the
    record the only one of PG and writes nothing: the record keeps the
    PP it came with, the heap is as before, no draw is used, and a nil
    record does not make it panic. *)
Theorem AddPGLine_empty (newPG : nat) (draws : list Z) (w : World) :
  PG (header w) = [] ->
  AddPGLine newPG draws w = Some (mkWorld (heap w) (withPG (header w) [newPG]), None).
Proof.
  intros Hempty. unfold AddPGLine. rewrite Hempty.
  by destruct draws.
Qed.

Lemma AddPGLine_empty_witness :
  AddPGLine 7%nat [] sortedWorld =
  Some (mkWorld (heap sortedWorld) (withPG (header sortedWorld) [7%nat]), None).
Proof. apply (AddPGLine_empty 7%nat [] sortedWorld). reflexivity. Defined.

(** X10: [AddPGLine] fails only when the collision loop outlasts the
    draws or when there is a tail to link to and the record is a nil
    map; otherwise it appends the record to PG, returns no alignment
    filter, changes no other map of the heap and no field of the
    record other than PP, and leaves the rest of the header as it
    was. *)
Theorem AddPGLine_frame (newPG : nat) (draws : list Z) (w : World) :
  match AddPGLine newPG draws w with
  | None =>
      collisionLoop (heap w) (PG (header w)) draws (entryGet (heap w) newPG "ID") = None \/
      (is_Some (tailLoop (heap w) (PG (header w)) (PG (header w))) /\
       heap w !! newPG = None)
  | Some (w', f) =>
      f = None /\
      PG (header w') = PG (header w) ++ [newPG] /\
      (HD (header w'), SQ (header w'), RG (header w'), UserRecords (header w')) =
      (HD (header w), SQ (header w), RG (header w), UserRecords (header w)) /\
      (forall other, other <> newPG -> heap w' !! other = heap w !! other) /\
      (forall key, key <> "PP" ->
         entryLookup (heap w') newPG key = entryLookup (heap w) newPG key)
  end.
Proof.
  unfold AddPGLine.
  destruct (collisionLoop _ _ _ _) as [id|]; [|by left].
  destruct (tailLoop _ _ _) as [nextID|]; [|done].
  unfold entrySet, entryLookup.
  destruct (heap w !! newPG) as [m|] eqn:Hm; [|right; split; [by eexists | done]].
  cbn [heap header PG withPG HD SQ RG UserRecords].
  split; [done|]. split; [done|]. split; [done|].
  split; [intros other Hother; by rewrite lookup_insert_ne|].
  intros key Hkey. rewrite lookup_insert_eq. by rewrite lookup_insert_ne.
Qed.

Lemma entryGet_ext h h' entry k :
  h' !! entry = h !! entry -> entryGet h' entry k = entryGet h entry k.
Proof. intros Heq. unfold entryGet. by rewrite Heq. Qed.

Lemma fresh_ID_not_in_PG h pg newPG :
  entryGet h newPG "ID" ∉ programIDs h pg -> newPG ∉ pg.
Proof.
  intros Hfresh Hin. apply Hfresh. unfold programIDs.
  apply list_elem_of_In, in_map_iff. exists newPG. by rewrite <- list_elem_of_In.
Qed.

Lemma map_entryGet_ext h h' pg newPG k :
  newPG ∉ pg -> (forall other, other <> newPG -> h' !! other = h !! other) ->
  map (fun entry => entryGet h' entry k) pg = map (fun entry => entryGet h entry k) pg.
Proof.
  intros Hnotin Hother. apply map_ext_in. intros entry Hin.
  apply entryGet_ext, Hother. intros ->. by apply Hnotin, list_elem_of_In.
Qed.

(** What [AddPGLine] does to the lists of IDs and PPs when the ID of
    the record is free and the record is an allocated map. *)
Lemma AddPGLine_fresh_lists newPG draws w m :
  heap w !! newPG = Some m ->
  entryGet (heap w) newPG "ID" ∉ programIDs (heap w) (PG (header w)) ->
  exists w',
    AddPGLine newPG draws w = Some (w', None) /\
    PG (header w') = PG (header w) ++ [newPG] /\
    (forall other, other <> newPG -> heap w' !! other = heap w !! other) /\
    is_Some (heap w' !! newPG) /\
    programIDs (heap w') (PG (header w')) =
      programIDs (heap w) (PG (header w)) ++ [entryGet (heap w) newPG "ID"] /\
    programPPs (heap w') (PG (header w')) =
      programPPs (heap w) (PG (header w)) ++
      [match tailLoop (heap w) (PG (header w)) (PG (header w)) with
       | Some nextID => nextID
       | None => entryGet (heap w) newPG "PP"
       end].
Proof.
  intros Hm Hfresh.
  pose proof (fresh_ID_not_in_PG _ _ _ Hfresh) as Hnotin.
  destruct (AddPGLine newPG draws w) as [[w' f]|] eqn:Hrun.
  - pose proof (AddPGLine_appends _ _ _ _ _ Hrun) as (-> & Hpg & Hid & Hother & Htail).
    exists w'. split; [done|]. split; [done|]. split; [done|].
    assert (is_Some (heap w' !! newPG)) as Hsome.
    { revert Hrun. unfold AddPGLine.
      destruct (collisionLoop _ _ _ _); [|done].
      destruct (tailLoop _ _ _).
      - unfold entrySet. rewrite Hm. intros [= <-]. cbn [heap].
        rewrite lookup_insert_eq. by eexists.
      - intros [= <-]. cbn [heap]. by eexists. }
    split; [done|]. rewrite Hpg. unfold programIDs, programPPs.
    rewrite !map_app, !(map_entryGet_ext _ _ _ newPG _ Hnotin Hother). cbn [map].
    split; [by rewrite Hid|]. do 2 f_equal.
    destruct (tailLoop _ _ _); [done | by rewrite Htail].
  - exfalso. destruct (AddPGLine_fresh newPG draws w m Hm) as [w' Hw'].
    + by apply Find_negative_programIDs.
    + congruence.
Qed.

(** X11: when the ID of the record is not taken and the record is an
    allocated map, [AddPGLine] returns for every sequence of draws,
    appends the ID of the record to the IDs of PG, and keeps the IDs of
    PG distinct if they were. *)
Theorem AddPGLine_fresh_keeps_IDs_distinct (newPG : nat) (draws : list Z) (w : World)
    (m : gmap string string) :
  heap w !! newPG = Some m ->
  entryGet (heap w) newPG "ID" ∉ programIDs (heap w) (PG (header w)) ->
  exists w',
    AddPGLine newPG draws w = Some (w', None) /\
    programIDs (heap w') (PG (header w')) =
      programIDs (heap w) (PG (header w)) ++ [entryGet (heap w) newPG "ID"] /\
    (NoDup (programIDs (heap w) (PG (header w))) ->
     NoDup (programIDs (heap w') (PG (header w')))).
Proof.
  intros Hm Hfresh.
  destruct (AddPGLine_fresh_lists newPG draws w m Hm Hfresh)
    as (w' & Hrun & _ & _ & _ & Hids & _).
  exists w'. split; [done|]. split; [done|].
  intros Hnd. rewrite Hids. apply NoDup_app. split; [done|].
  split; [|apply NoDup_singleton].
  intros id Hin [->|Hnil%elem_of_nil]%elem_of_cons; done.
Qed.

Lemma AddPGLine_fresh_keeps_IDs_distinct_witness :
  exists w',
    AddPGLine 2%nat [] chainWorld = Some (w', None) /\
    programIDs (heap w') (PG (header w')) = ["bwa"; "sort"; "elprep"].
Proof.
  destruct (AddPGLine_fresh_keeps_IDs_distinct 2%nat [] chainWorld {["ID" := "elprep"]})
    as (w' & Hrun & Hids & _).
  - reflexivity.
  - vm_compute. intros Hin. apply list_elem_of_In in Hin. simpl in Hin.
    repeat (destruct Hin as [Hin|Hin]; try discriminate Hin). done.
  - exists w'. split; [exact Hrun|]. rewrite Hids. reflexivity.
Defined.

Lemma find_unreferenced_last (ids pps : list string) (tail : string) :
  (forall id, id ∈ ids -> id ∈ pps) -> tail ∉ pps ->
  List.find (fun id => bool_decide (id ∉ pps)) (ids ++ [tail]) = Some tail.
Proof.
  induction ids as [|id rest IH]; intros Hsub Htail; cbn [app List.find].
  - by rewrite bool_decide_eq_true_2.
  - rewrite bool_decide_eq_false_2.
    + apply IH; [|done]. intros x Hx. apply Hsub. by right.
    + intros Hn. apply Hn, Hsub. by left.
Qed.

Lemma isChain_tail h pg init tail :
  isChain h pg -> pg = init ++ [tail] ->
  tailLoop h pg pg = Some (entryGet h tail "ID").
Proof.
  intros (Hnd & root & Hroot & Hpps) ->. rewrite tailLoop_unfold, Hpps.
  unfold programIDs in *. rewrite map_app in *. cbn [map] in *.
  rewrite length_app, Nat.add_1_r. cbn [take].
  rewrite take_app_length' by (by rewrite length_map).
  apply find_unreferenced_last.
  - intros id Hid. by right.
  - intros [Heq|Hin]%elem_of_cons.
    + apply Hroot, elem_of_app. right. rewrite <- Heq. by left.
    + apply NoDup_app in Hnd as (_ & Hdisj & _). apply (Hdisj _ Hin). by left.
Qed.

(** One step on a chain, with the lists of IDs and PPs it leaves. *)
Lemma AddPGLine_chain_step newPG draws w m init tail :
  isChain (heap w) (PG (header w)) ->
  PG (header w) = init ++ [tail] ->
  heap w !! newPG = Some m ->
  entryGet (heap w) newPG "ID" ∉ programIDs (heap w) (PG (header w)) ->
  entryGet (heap w) newPG "ID" ∉ programPPs (heap w) (PG (header w)) ->
  exists w',
    AddPGLine newPG draws w = Some (w', None) /\
    PG (header w') = PG (header w) ++ [newPG] /\
    entryGet (heap w') newPG "PP" = entryGet (heap w) tail "ID" /\
    entryGet (heap w') newPG "ID" = entryGet (heap w) newPG "ID" /\
    (forall other, other <> newPG -> heap w' !! other = heap w !! other) /\
    programIDs (heap w') (PG (header w')) =
      programIDs (heap w) (PG (header w)) ++ [entryGet (heap w) newPG "ID"] /\
    programPPs (heap w') (PG (header w')) =
      programPPs (heap w) (PG (header w)) ++ [entryGet (heap w) tail "ID"] /\
    isChain (heap w') (PG (header w')).
Proof.
  intros Hchain Hpg Hm Hfresh Hunused.
  destruct (AddPGLine_fresh_lists newPG draws w m Hm Hfresh)
    as (w' & Hrun & Hpg' & Hother & Hsome & Hids & Hpps).
  rewrite (isChain_tail _ _ init tail Hchain Hpg) in Hpps.
  pose proof (AddPGLine_appends _ _ _ _ _ Hrun) as (_ & _ & Hid & _ & Htail).
  rewrite (isChain_tail _ _ init tail Hchain Hpg) in Htail.
  exists w'. split; [done|]. split; [done|]. split; [done|]. split; [done|].
  split; [done|]. split; [done|]. split; [done|].
  destruct Hchain as (Hnd & root & Hroot & Hchainpps).
  split.
  - rewrite Hids. apply NoDup_app. split; [done|]. split; [|apply NoDup_singleton].
    intros id Hin [->|Hnil%elem_of_nil]%elem_of_cons; done.
  - exists root. rewrite Hids, Hpps, Hchainpps, Hpg'. split.
    + intros [Hin|[Heq|Hnil%elem_of_nil]%elem_of_cons]%elem_of_app; [done| |done].
      apply Hunused. rewrite Hchainpps, Hpg, length_app, Nat.add_1_r.
      cbn [take]. rewrite <- Heq. by left.
    + assert (length (programIDs (heap w) init) = length init) as Hlen
        by (unfold programIDs; by rewrite length_map).
      rewrite Hpg. unfold programIDs at 1 2. rewrite !map_app. cbn [map].
      fold (programIDs (heap w) init).
      rewrite !length_app, !Nat.add_1_r. cbn [take length].
      rewrite take_app_length' by done.
      rewrite take_app_length'; [done|].
      rewrite length_app, Hlen. simpl. lia.
Qed.

(** X12: on a header whose program records form one chain in file
    order, [AddPGLine] with a record whose ID is used neither as an ID
    nor as a PP links the record to the last record of PG, and the
    records form one chain again. *)
Theorem AddPGLine_extends_chain (newPG : nat) (draws : list Z) (w : World)
    (m : gmap string string) (init : list nat) (tail : nat) :
  isChain (heap w) (PG (header w)) ->
  PG (header w) = init ++ [tail] ->
  heap w !! newPG = Some m ->
  entryGet (heap w) newPG "ID" ∉ programIDs (heap w) (PG (header w)) ->
  entryGet (heap w) newPG "ID" ∉ programPPs (heap w) (PG (header w)) ->
  exists w',
    AddPGLine newPG draws w = Some (w', None) /\
    PG (header w') = PG (header w) ++ [newPG] /\
    entryGet (heap w') newPG "PP" = entryGet (heap w) tail "ID" /\
    entryGet (heap w') newPG "ID" = entryGet (heap w) newPG "ID" /\
    (forall other, other <> newPG -> heap w' !! other = heap w !! other) /\
    isChain (heap w') (PG (header w')).
Proof.
  intros Hchain Hpg Hm Hfresh Hunused.
  destruct (AddPGLine_chain_step newPG draws w m init tail Hchain Hpg Hm Hfresh Hunused)
    as (w' & Hrun & Hpg' & Hpp & Hid & Hother & _ & _ & Hchain').
  exists w'. split; [exact Hrun|]. split; [exact Hpg'|]. split; [exact Hpp|].
  split; [exact Hid|]. split; [exact Hother | exact Hchain'].
Qed.

Lemma isChain_chainWorld : isChain (heap chainWorld) (PG (header chainWorld)).
Proof. split; [compute_done|]. exists "". split; [compute_done | reflexivity]. Qed.

Lemma AddPGLine_extends_chain_witness :
  isChain (heap chainWorld) (PG (header chainWorld)) /\
  exists w',
    AddPGLine 2%nat [] chainWorld = Some (w', None) /\
    PG (header w') = [0%nat; 1%nat; 2%nat] /\
    entryGet (heap w') 2%nat "PP" = "sort" /\
    isChain (heap w') (PG (header w')).
Proof.
  split; [exact isChain_chainWorld|].
  destruct (AddPGLine_extends_chain 2%nat [] chainWorld {["ID" := "elprep"]} [0%nat] 1%nat)
    as (w' & Hrun & Hpg & Hpp & _ & _ & Hchain).
  - exact isChain_chainWorld.
  - reflexivity.
  - reflexivity.
  - compute_done.
  - compute_done.
  - exists w'. split; [exact Hrun|]. split; [rewrite Hpg; reflexivity|].
    split; [rewrite Hpp; reflexivity | exact Hchain].
Defined.

(** X13: two records with distinct unused IDs added one after the other
    to a chain end up at the end of PG in that order; the first points
    to the old last record and the second to the first, and the records
    form one chain. *)
Theorem AddPGLine_twice (first second : nat) (draws1 draws2 : list Z) (w : World)
    (m1 m2 : gmap string string) (init : list nat) (tail : nat) :
  isChain (heap w) (PG (header w)) ->
  PG (header w) = init ++ [tail] ->
  heap w !! first = Some m1 ->
  heap w !! second = Some m2 ->
  entryGet (heap w) first "ID" ∉ programIDs (heap w) (PG (header w)) ->
  entryGet (heap w) first "ID" ∉ programPPs (heap w) (PG (header w)) ->
  entryGet (heap w) second "ID" ∉ programIDs (heap w) (PG (header w)) ->
  entryGet (heap w) second "ID" ∉ programPPs (heap w) (PG (header w)) ->
  entryGet (heap w) second "ID" <> entryGet (heap w) first "ID" ->
  exists w1 w2,
    AddPGLine first draws1 w = Some (w1, None) /\
    AddPGLine second draws2 w1 = Some (w2, None) /\
    PG (header w2) = PG (header w) ++ [first; second] /\
    entryGet (heap w2) first "PP" = entryGet (heap w) tail "ID" /\
    entryGet (heap w2) second "PP" = entryGet (heap w) first "ID" /\
    isChain (heap w2) (PG (header w2)).
Proof.
  intros Hchain Hpg Hm1 Hm2 Hfresh1 Hunused1 Hfresh2 Hunused2 Hdiff.
  assert (second <> first) as Hne by (intros ->; done).
  destruct (AddPGLine_chain_step first draws1 w m1 init tail)
    as (w1 & Hrun1 & Hpg1 & Hpp1 & Hid1 & Hother1 & Hids1 & Hpps1 & Hchain1); try done.
  assert (entryGet (heap w1) second "ID" = entryGet (heap w) second "ID") as Hid2
    by (by apply entryGet_ext, Hother1).
  destruct (AddPGLine_chain_step second draws2 w1 m2 (PG (header w)) first)
    as (w2 & Hrun2 & Hpg2 & Hpp2 & _ & Hother2 & _ & _ & Hchain2); try done.
  - by rewrite Hother1.
  - rewrite Hid2, Hids1. intros [Hin|[Heq|Hnil%elem_of_nil]%elem_of_cons]%elem_of_app; done.
  - rewrite Hid2, Hpps1. intros [Hin|[Heq|Hnil%elem_of_nil]%elem_of_cons]%elem_of_app;
      [done| |done].
    apply Hfresh2. rewrite Heq, Hpg. unfold programIDs. rewrite map_app.
    apply elem_of_app. right. by left.
  - exists w1, w2. split; [done|]. split; [done|].
    split; [by rewrite Hpg2, Hpg1, <- app_assoc|].
    split; [|split; [by rewrite Hpp2, Hid1 | done]].
    rewrite <- Hpp1. apply entryGet_ext, Hother2. by intros ->.
Qed.

Lemma AddPGLine_twice_witness :
  exists w1 w2,
    AddPGLine 2%nat [] chainWorld = Some (w1, None) /\
    AddPGLine 3%nat [] w1 = Some (w2, None) /\
    PG (header w2) = [0%nat; 1%nat; 2%nat; 3%nat] /\
    entryGet (heap w2) 2%nat "PP" = "sort" /\
    entryGet (heap w2) 3%nat "PP" = "elprep".
Proof.
  destruct (AddPGLine_twice 2%nat 3%nat [] [] chainWorld
              {["ID" := "elprep"]} {["ID" := "split"]} [0%nat] 1%nat)
    as (w1 & w2 & Hrun1 & Hrun2 & Hpg & Hpp1 & Hpp2 & _).
  - exact isChain_chainWorld.
  - reflexivity.
  - reflexivity.
  - reflexivity.
  - compute_done.
  - compute_done.
  - compute_done.
  - compute_done.
  - discriminate.
  - exists w1, w2. split; [exact Hrun1|]. split; [exact Hrun2|].
    split; [rewrite Hpg; reflexivity|].
    split; [rewrite Hpp1; reflexivity | rewrite Hpp2; reflexivity].
Defined.

(** ** More on dictionary replacement *)

Lemma increasingFrom_mono previous previous' l :
  previous <= previous' -> increasingFrom previous' l = true ->
  increasingFrom previous l = true.
Proof.
  destruct l as [|x rest]; [done|]. cbn [increasingFrom].
  rewrite !andb_true_iff, !Z.ltb_lt. intros Hle [Hlt Hrest]. split; [lia | done].
Qed.

Lemma matchedIndices_cons h oldDict entry dict :
  matchedIndices h oldDict (entry :: dict) =
  match oldIndex h oldDict entry with
  | Some pos => pos :: matchedIndices h oldDict dict
  | None => matchedIndices h oldDict dict
  end.
Proof. reflexivity. Qed.

Lemma sublist_increasingFrom h before after dict :
  NoDup (names h (before ++ after)) ->
  sublist dict after ->
  increasingFrom (Z.of_nat (length before) - 1)
    (matchedIndices h (before ++ after) dict) = true.
Proof.
  intros Hnd Hsub. revert before Hnd.
  induction Hsub as [|entry dict after Hsub IH|entry dict after Hsub IH]; intros before Hnd.
  - done.
  - rewrite matchedIndices_cons.
    rewrite (oldIndex_position h (before ++ entry :: after) entry (length before) entry);
      [|done|by apply list_lookup_middle|done].
    cbn [increasingFrom]. rewrite andb_true_iff, Z.ltb_lt. split; [lia|].
    specialize (IH (before ++ [entry])). rewrite <- app_assoc in IH. cbn [app] in IH.
    rewrite length_app, Nat.add_1_r in IH.
    replace (Z.of_nat (S (length before)) - 1) with (Z.of_nat (length before)) in IH by lia.
    by apply IH.
  - specialize (IH (before ++ [entry])). rewrite <- app_assoc in IH. cbn [app] in IH.
    rewrite length_app, Nat.add_1_r in IH.
    apply (increasingFrom_mono _ (Z.of_nat (S (length before)) - 1)); [lia|].
    by apply IH.
Qed.

(** X14: replacing the dictionary by a selection of its own entries in
    their old order (names being unique in the old dictionary) never
    touches HD: a coordinate sort order stays. *)
Theorem ReplaceReferenceSequenceDictionary_sublist (w : World) (dict : list nat) :
  NoDup (names (heap w) (SQ (header w))) ->
  sublist dict (SQ (header w)) ->
  exists f,
    ReplaceReferenceSequenceDictionary dict w =
      Some (mkWorld (heap w) (withSQ (header w) dict), Some f).
Proof.
  intros Hnd Hsub. unfold ReplaceReferenceSequenceDictionary.
  destruct (String.eqb _ "coordinate"); [|by eexists].
  rewrite sortingOrderLoop_increasingFrom.
  pose proof (sublist_increasingFrom (heap w) [] (SQ (header w)) dict Hnd Hsub) as Hinc.
  cbn [app length] in Hinc. change (Z.of_nat 0 - 1) with (-1) in Hinc.
  rewrite Hinc. by eexists.
Qed.

Lemma ReplaceReferenceSequenceDictionary_sublist_witness :
  exists f,
    ReplaceReferenceSequenceDictionary [0%nat; 2%nat] sortedWorld =
      Some (mkWorld (heap sortedWorld) (withSQ (header sortedWorld) [0%nat; 2%nat]), Some f).
Proof.
  apply (ReplaceReferenceSequenceDictionary_sublist sortedWorld [0%nat; 2%nat]).
  - compute_done.
  - apply sublist_skip, sublist_cons, sublist_skip, sublist_nil.
Defined.

Lemma oldIndex_present h oldDict entry :
  entryGet h entry "SN" ∈ names h oldDict -> is_Some (oldIndex h oldDict entry).
Proof.
  intros Hin. unfold oldIndex, Find. destruct (0 <=? _) eqn:Hpos; [by eexists|].
  exfalso. apply Z.leb_gt, FindFrom_none in Hpos; [|lia].
  unfold names in Hin. apply list_elem_of_In, in_map_iff in Hin as (old & Hsn & Hin).
  rewrite Forall_forall in Hpos. apply list_elem_of_In in Hin.
  specialize (Hpos old Hin). by apply String.eqb_neq in Hpos.
Qed.

Lemma oldIndex_same_name h oldDict a b :
  entryGet h a "SN" = entryGet h b "SN" -> oldIndex h oldDict a = oldIndex h oldDict b.
Proof. intros Hsn. unfold oldIndex. by rewrite Hsn. Qed.

(** X15: when the header is sorted by coordinate and the new
    dictionary has two entries with the same name, a name the old
    dictionary has too, the sort order becomes "unknown". *)
Theorem ReplaceReferenceSequenceDictionary_repeated_name (w : World) (dict : list nat)
    (i j : nat) (a b : nat) :
  sortingOrder (header w) = "coordinate" ->
  dict !! i = Some a -> dict !! j = Some b -> (i < j)%nat ->
  entryGet (heap w) a "SN" = entryGet (heap w) b "SN" ->
  entryGet (heap w) a "SN" ∈ names (heap w) (SQ (header w)) ->
  exists f,
    ReplaceReferenceSequenceDictionary dict w =
      Some (mkWorld (heap w)
              (withSQ (withHD (header w) (SetHD_SO (HD (header w)) "unknown")) dict),
            Some f).
Proof.
  intros Hso Hi Hj Hij Hsn Hin. unfold ReplaceReferenceSequenceDictionary.
  unfold sortingOrder in Hso. rewrite Hso, String.eqb_refl.
  rewrite sortingOrderLoop_increasingFrom.
  destruct (increasingFrom _ _) eqn:Hinc; [|by eexists].
  exfalso. apply increasingFrom_initial in Hinc.
  destruct (oldIndex_present _ _ _ Hin) as [pos Hpos].
  pose proof Hpos as Hposb. rewrite (oldIndex_same_name _ _ a b Hsn) in Hposb.
  rewrite <- (take_drop_middle dict i a Hi) in Hinc.
  assert (drop (S i) dict !! (j - S i)%nat = Some b) as Hj'.
  { rewrite lookup_drop. rewrite <- Hj. f_equal. lia. }
  rewrite <- (take_drop_middle _ _ _ Hj') in Hinc.
  rewrite matchedIndices_app, matchedIndices_cons, Hpos in Hinc.
  rewrite matchedIndices_app, matchedIndices_cons, Hposb in Hinc.
  apply StronglySorted_app_1_r, StronglySorted_inv in Hinc as [_ Hall].
  apply Forall_app in Hall as [_ Hall]. apply Forall_cons in Hall as [Hlt _]. lia.
Qed.

Lemma ReplaceReferenceSequenceDictionary_repeated_name_witness :
  exists f,
    ReplaceReferenceSequenceDictionary [1%nat; 2%nat; 1%nat] sortedWorld =
      Some (mkWorld (heap sortedWorld)
              (withSQ (withHD (header sortedWorld)
                         (SetHD_SO (HD (header sortedWorld)) "unknown"))
                 [1%nat; 2%nat; 1%nat]),
            Some f).
Proof.
  apply (ReplaceReferenceSequenceDictionary_repeated_name sortedWorld
           [1%nat; 2%nat; 1%nat] 0%nat 2%nat 1%nat 1%nat).
  - reflexivity.
  - reflexivity.
  - reflexivity.
  - lia.
  - reflexivity.
  - compute_done.
Defined.

(** ** More on reference indices and renaming *)

Lemma refidLoop_names h sq index dictTable :
  refidLoop h sq index dictTable = refidTable (names h sq) index dictTable.
Proof.
  revert index dictTable. induction sq as [|entry rest IH]; intros index dictTable; [done|].
  cbn [refidLoop names map refidTable]. apply IH.
Qed.

Lemma refidTable_snoc ns name index dictTable :
  refidTable (ns ++ [name]) index dictTable =
  <[name := int32 (index + Z.of_nat (length ns))]> (refidTable ns index dictTable).
Proof.
  revert index dictTable. induction ns as [|first rest IH]; intros index dictTable.
  - cbn [app refidTable length]. do 2 f_equal. lia.
  - cbn [app refidTable length]. rewrite IH. do 2 f_equal. lia.
Qed.

Lemma refidTable_last ns index dictTable k :
  ((k ∉ ns) /\ refidTable ns index dictTable !! k = dictTable !! k) \/
  exists n : nat,
    ns !! n = Some k /\
    refidTable ns index dictTable !! k = Some (int32 (index + Z.of_nat n)) /\
    forall m : nat, (n < m)%nat -> ns !! m <> Some k.
Proof.
  induction ns as [|name ns IH] using rev_ind.
  - left. split; [apply not_elem_of_nil | done].
  - rewrite refidTable_snoc. destruct (decide (name = k)) as [->|Hne].
    + right. exists (length ns). split; [by apply list_lookup_middle|].
      split; [by rewrite lookup_insert_eq|].
      intros m Hm. rewrite lookup_ge_None_2; [done|]. rewrite length_app. simpl. lia.
    + rewrite lookup_insert_ne by done. destruct IH as [[Hnotin Hlook]|(n & Hn & Hlook & Hlast)].
      * left. split; [|done]. intros [?|[?|?%elem_of_nil]%elem_of_cons]%elem_of_app; done.
      * right. exists n. split; [by rewrite lookup_app_l by (by eapply lookup_lt_Some)|].
        split; [done|]. intros m Hm Hk.
        destruct (decide (m < length ns)%nat) as [Hlt|Hge].
        -- rewrite lookup_app_l in Hk by done. by apply (Hlast m).
        -- rewrite lookup_app_r in Hk by lia.
           destruct (m - length ns)%nat; simpl in Hk; [congruence | done].
Qed.

(** X16: whatever the names in SQ, the alignment filter of [AddREFID]
    sets REFID to -1 when no SQ entry is named RNAME and otherwise to
    the (32-bit) index of the last SQ entry named RNAME; with at most
    2^31 entries the result is -1 or a valid index into SQ. *)
Theorem AddREFID_last_index (w : World) :
  exists f,
    AddREFID w = Some (w, Some f) /\
    forall (w2 : World) (aln : Alignment),
      exists value,
        call (mkRecordState f w2 aln) =
          Some (true, mkRecordState f w2 (SetREFID aln value)) /\
        (((RNAME aln ∉ names (heap w) (SQ (header w))) /\ value = -1) \/
         exists (n : nat) (entry : nat),
           SQ (header w) !! n = Some entry /\
           entryGet (heap w) entry "SN" = RNAME aln /\
           value = int32 (Z.of_nat n) /\
           forall (m : nat) (later : nat),
             (n < m)%nat -> SQ (header w) !! m = Some later ->
             entryGet (heap w) later "SN" <> RNAME aln) /\
        (Z.of_nat (length (SQ (header w))) <= 2 ^ 31 ->
         value = -1 \/ 0 <= value < Z.of_nat (length (SQ (header w)))).
Proof.
  eexists. split; [reflexivity|]. intros w2 aln. eexists. split; [reflexivity|].
  cbn [alignment]. rewrite refidLoop_names.
  destruct (refidTable_last (names (heap w) (SQ (header w))) 0 ∅ (RNAME aln))
    as [[Hnotin Hlook]|(n & Hn & Hlook & Hlast)]; rewrite Hlook.
  - rewrite lookup_empty. split; [by left | by left].
  - unfold names in Hn. rewrite list_lookup_fmap in Hn.
    destruct (SQ (header w) !! n) as [entry|] eqn:Hentry; [|done].
    injection Hn as Hsn. pose proof (lookup_lt_Some _ _ _ Hentry) as Hlt. split.
    + right. exists n, entry. split; [done|]. split; [done|]. split; [done|].
      intros m later Hm Hlater Heq. apply (Hlast m Hm).
      unfold names. by rewrite list_lookup_fmap, Hlater, <- Heq.
    + intros Hlen. right. rewrite int32_small; lia.
Qed.

Lemma renameLoop_name h sq entry :
  NoDup sq -> entry ∈ sq -> is_Some (entryLookup h entry "SN") ->
  entryGet (renameLoop h sq) entry "SN" = "chr" +:+ entryGet h entry "SN".
Proof.
  intros Hnd Hin [sn Hsn]. unfold entryGet, entryLookup in *.
  rewrite renameLoop_lookup, decide_True by done.
  destruct (h !! entry) as [m|]; [|done]. cbn [fmap option_fmap option_map].
  unfold renameEntry, index. rewrite Hsn. by rewrite lookup_insert_eq.
Qed.

Lemma renameLoop_names h sq :
  NoDup sq ->
  (forall entry, entry ∈ sq -> is_Some (entryLookup h entry "SN")) ->
  names (renameLoop h sq) sq = map (fun sn => "chr" +:+ sn) (names h sq).
Proof.
  intros Hnd Hsn. unfold names. rewrite map_map. apply map_ext_in. intros entry Hin.
  apply list_elem_of_In in Hin. by apply renameLoop_name; [| |apply Hsn].
Qed.

(** X17: when the SQ entries are distinct maps that all have an SN,
    the header phase of [RenameChromosomes] turns the list of sequence
    names into the same list with "chr" before each name, and names
    that were unique stay unique. *)
Theorem RenameChromosomes_names (w : World) :
  NoDup (SQ (header w)) ->
  (forall entry, entry ∈ SQ (header w) -> is_Some (entryLookup (heap w) entry "SN")) ->
  exists h' f,
    RenameChromosomes w = Some (mkWorld h' (header w), Some f) /\
    names h' (SQ (header w)) =
      map (fun sn => "chr" +:+ sn) (names (heap w) (SQ (header w))) /\
    (NoDup (names (heap w) (SQ (header w))) -> NoDup (names h' (SQ (header w)))).
Proof.
  intros Hnd Hsn. eexists _, _. split; [reflexivity|].
  pose proof (renameLoop_names (heap w) (SQ (header w)) Hnd Hsn) as Hnames.
  split; [done|]. rewrite Hnames. intros Hnames_nd.
  by apply (NoDup_fmap_2 (String.append "chr")).
Qed.

Lemma RenameChromosomes_names_witness :
  exists h' f,
    RenameChromosomes plainWorld = Some (mkWorld h' (header plainWorld), Some f) /\
    names h' (SQ (header plainWorld)) = ["chr1"; "chrX"].
Proof.
  destruct (RenameChromosomes_names plainWorld) as (h' & f & Hrun & Hnames & _).
  - compute_done.
  - intros entry Hin. apply list_elem_of_In in Hin. simpl in Hin.
    destruct Hin as [<-|[<-|[]]]; by eexists.
  - exists h', f. split; [exact Hrun|]. rewrite Hnames. reflexivity.
Defined.

Lemma refidTable_rename (f : string -> string) `{!Inj (=) (=) f} ns index dictTable k :
  refidTable (map f ns) index (kmap f dictTable) !! f k =
  refidTable ns index dictTable !! k.
Proof.
  revert index dictTable. induction ns as [|name rest IH]; intros index dictTable.
  - cbn [map refidTable]. by rewrite lookup_kmap.
  - cbn [map refidTable]. rewrite <- kmap_insert by done. apply IH.
Qed.

Lemma refidTable_absent ns index dictTable k :
  k ∉ ns -> refidTable ns index dictTable !! k = dictTable !! k.
Proof.
  revert index dictTable. induction ns as [|name rest IH]; intros index dictTable Hk; [done|].
  apply not_elem_of_cons in Hk as [Hne Hk]. cbn [refidTable].
  rewrite IH by done. by rewrite lookup_insert_ne.
Qed.

(** X18: renaming and indexing agree.  When the SQ entries are distinct
    maps that all have an SN, an alignment whose RNAME is not a
    sentinel gets, from the filter of [RenameChromosomes] followed by
    the filter of [AddREFID] on the renamed header, the REFID that
    [AddREFID] gives it on the header before renaming; an alignment
    whose RNAME is "*" or "=" gets -1 after renaming. *)
Theorem RenameChromosomes_then_AddREFID (w : World) :
  NoDup (SQ (header w)) ->
  (forall entry, entry ∈ SQ (header w) -> is_Some (entryLookup (heap w) entry "SN")) ->
  exists w1 rename refid refid0,
    RenameChromosomes w = Some (w1, Some rename) /\
    AddREFID w1 = Some (w1, Some refid) /\
    AddREFID w = Some (w, Some refid0) /\
    forall (w2 : World) (aln : Alignment),
      exists aln1 value value0,
        call (mkRecordState rename w2 aln) = Some (true, mkRecordState rename w2 aln1) /\
        call (mkRecordState refid w2 aln1) =
          Some (true, mkRecordState refid w2 (SetREFID aln1 value)) /\
        call (mkRecordState refid0 w2 aln) =
          Some (true, mkRecordState refid0 w2 (SetREFID aln value0)) /\
        (RNAME aln <> "*" /\ RNAME aln <> "=" -> value = value0) /\
        (RNAME aln = "*" \/ RNAME aln = "=" -> value = -1).
Proof.
  intros Hnd Hsn.
  pose proof (renameLoop_names (heap w) (SQ (header w)) Hnd Hsn) as Hnames.
  eexists _, _, _, _. split; [reflexivity|]. split; [reflexivity|]. split; [reflexivity|].
  intros w2 aln. eexists _, _, _.
  split; [unfold call; cbn [closure alignment world];
          rewrite RenameChromosomes_aln_fields; reflexivity|].
  split; [reflexivity|]. split; [reflexivity|].
  cbn [fst alignment RNAME heap header]. rewrite !refidLoop_names, Hnames. split.
  - intros Hplain. rewrite renameField_other by done.
    rewrite <- (kmap_empty (String.append "chr")).
    by rewrite (refidTable_rename (String.append "chr")).
  - intros Hsentinel. rewrite renameField_sentinel by done.
    rewrite refidTable_absent, lookup_empty; [done|].
    intros Hin. apply list_elem_of_In, in_map_iff in Hin as (sn & Heq & _).
    destruct Hsentinel as [Hs|Hs]; rewrite Hs in Heq; discriminate Heq.
Qed.

Lemma RenameChromosomes_then_AddREFID_witness :
  exists w1 rename refid,
    RenameChromosomes plainWorld = Some (w1, Some rename) /\
    AddREFID w1 = Some (w1, Some refid) /\
    exists aln1 value,
      mutated rename w1 (read "X" []) = Some aln1 /\
      mutated refid w1 aln1 = Some (SetREFID aln1 value) /\
      value = 1.
Proof.
  destruct (RenameChromosomes_then_AddREFID plainWorld)
    as (w1 & rename & refid & refid0 & Hrename & Hrefid & Hrefid0 & Hcall).
  - compute_done.
  - intros entry Hin. apply list_elem_of_In in Hin. simpl in Hin.
    destruct Hin as [<-|[<-|[]]]; by eexists.
  - exists w1, rename, refid. split; [exact Hrename|]. split; [exact Hrefid|].
    destruct (Hcall w1 (read "X" [])) as (aln1 & value & value0 & Hc1 & Hc2 & Hc0 & Hsame & _).
    exists aln1, value. split; [unfold mutated; by rewrite Hc1|].
    split; [unfold mutated; by rewrite Hc2|].
    rewrite Hsame by (split; discriminate).
    injection Hrefid0 as <-. vm_compute in Hc0. by injection Hc0 as <-.
Defined.

(** X19: the alignment filter of [RenameChromosomes] never merges
    reference names: two alignments whose RNAMEs differ have different
    RNAMEs afterwards, sentinels included. *)
Theorem RenameChromosomes_injective (w2 : World) (aln1 aln2 aln1' aln2' : Alignment) :
  mutated RenameChromosomes_closure w2 aln1 = Some aln1' ->
  mutated RenameChromosomes_closure w2 aln2 = Some aln2' ->
  RNAME aln1' = RNAME aln2' ->
  RNAME aln1 = RNAME aln2.
Proof.
  unfold mutated, call. cbn [closure alignment]. rewrite !RenameChromosomes_aln_fields.
  cbn [fst alignment]. intros [= <-] [= <-]. cbn [RNAME]. unfold renameField.
  destruct (decide (RNAME aln1 = "*" \/ RNAME aln1 = "=")) as [Hs1|Hn1];
    destruct (decide (RNAME aln2 = "*" \/ RNAME aln2 = "=")) as [Hs2|Hn2]; try done.
  - intros Heq. destruct Hs1 as [Hs1|Hs1]; rewrite Hs1 in Heq; discriminate Heq.
  - intros Heq. destruct Hs2 as [Hs2|Hs2]; rewrite Hs2 in Heq; discriminate Heq.
  - apply String.app_inj.
Qed.

Lemma RenameChromosomes_injective_witness :
  mutated RenameChromosomes_closure plainWorld (read "X" []) =
    Some (withRNAME (read "X" []) "chrX") /\
  RNAME (read "X" []) = RNAME (read "X" [(X0, VInt32 1)]).
Proof.
  split; [reflexivity|].
  apply (RenameChromosomes_injective plainWorld (read "X" []) (read "X" [(X0, VInt32 1)])
           (withRNAME (read "X" []) "chrX") (withRNAME (read "X" [(X0, VInt32 1)]) "chrX"));
    reflexivity.
Defined.

(** ** Where the strict exactness filter panics *)

Lemma tagDiffers_None tags key expected :
  tagDiffers tags key expected = None <-> illTyped tags key.
Proof.
  unfold tagDiffers, illTyped. destruct (SmallMap_Get tags key) as [v|].
  - destruct v; simpl; split; try done;
      try (intros _; eexists; split; [done | done]).
    intros (v & [= <-] & Hv). by destruct (Hv i).
  - split; [done | intros (v & Hv & _); done].
Qed.

(** X20: the alignment filter of [FilterNonExactMappingReadsStrict]
    panics exactly when the first of X0, X1, XM, XO, XG that is not
    present with its expected value is present with a value that is not
    a 32-bit integer; a field after an absent or different field is
    never looked at. *)
Theorem FilterNonExactMappingReadsStrict_panics (w2 : World) (aln : Alignment) :
  call (mkRecordState FilterNonExactMappingReadsStrict_closure w2 aln) = None <->
  illTyped (TAGS aln) X0 \/
  (holds (TAGS aln) X0 1 /\ illTyped (TAGS aln) X1) \/
  (holds (TAGS aln) X0 1 /\ holds (TAGS aln) X1 0 /\ illTyped (TAGS aln) XM) \/
  (holds (TAGS aln) X0 1 /\ holds (TAGS aln) X1 0 /\ holds (TAGS aln) XM 0 /\
   illTyped (TAGS aln) XO) \/
  (holds (TAGS aln) X0 1 /\ holds (TAGS aln) X1 0 /\ holds (TAGS aln) XM 0 /\
   holds (TAGS aln) XO 0 /\ illTyped (TAGS aln) XG).
Proof.
  rewrite call_FilterNonExactMappingReadsStrict.
  unfold holds. rewrite <- !tagDiffers_false.
  rewrite <- (tagDiffers_None (TAGS aln) X0 1), <- (tagDiffers_None (TAGS aln) X1 0),
    <- (tagDiffers_None (TAGS aln) XM 0), <- (tagDiffers_None (TAGS aln) XO 0),
    <- (tagDiffers_None (TAGS aln) XG 0).
  unfold FilterNonExactMappingReadsStrict_aln, returnFalseIf.
  destruct (tagDiffers (TAGS aln) X0 1) as [[]|]; [intuition congruence| |intuition congruence].
  destruct (tagDiffers (TAGS aln) X1 0) as [[]|]; [intuition congruence| |intuition congruence].
  destruct (tagDiffers (TAGS aln) XM 0) as [[]|]; [intuition congruence| |intuition congruence].
  destruct (tagDiffers (TAGS aln) XO 0) as [[]|]; [intuition congruence| |intuition congruence].
  destruct (tagDiffers (TAGS aln) XG 0) as [[]|]; intuition congruence.
Qed.

(** ** Filters one after the other *)

Lemma renameLoop_untouched h sq entry :
  entry ∉ sq -> renameLoop h sq !! entry = h !! entry.
Proof.
  revert h. induction sq as [|first rest IH]; intros h Hnotin; [done|].
  apply not_elem_of_cons in Hnotin as [Hne Hnotin]. cbn [renameLoop].
  destruct (h !! first) as [m|]; [|by apply IH].
  destruct (m !! "SN"); [|by apply IH].
  rewrite IH by done. by rewrite lookup_insert_ne.
Qed.

Lemma ReplaceReferenceSequenceDictionary_aln_true h dict aln :
  ReplaceReferenceSequenceDictionary_aln (buildDictTable h dict ∅) aln =
  bool_decide (RNAME aln ∈ names h dict).
Proof.
  unfold ReplaceReferenceSequenceDictionary_aln.
  rewrite buildDictTable_lookup, lookup_empty. by case_bool_decide.
Qed.

(** X21: dictionary replacement followed by renaming is consistent.
    When the new entries are distinct maps that all have an SN, an
    alignment that the filter of [ReplaceReferenceSequenceDictionary]
    keeps and whose RNAME is not a sentinel has, after the filter of
    [RenameChromosomes], the name of an entry of the renamed SQ. *)
Theorem Replace_then_Rename_consistent (w : World) (dict : list nat) :
  NoDup dict ->
  (forall entry, entry ∈ dict -> is_Some (entryLookup (heap w) entry "SN")) ->
  exists w1 keep w2 rename,
    ReplaceReferenceSequenceDictionary dict w = Some (w1, Some keep) /\
    RenameChromosomes w1 = Some (w2, Some rename) /\
    SQ (header w2) = dict /\
    forall (wr : World) (aln : Alignment),
      call (mkRecordState keep wr aln) = Some (true, mkRecordState keep wr aln) ->
      RNAME aln <> "*" /\ RNAME aln <> "=" ->
      exists aln',
        call (mkRecordState rename wr aln) = Some (true, mkRecordState rename wr aln') /\
        RNAME aln' = "chr" +:+ RNAME aln /\
        RNAME aln' ∈ names (heap w2) (SQ (header w2)).
Proof.
  intros Hnd Hsn. eexists _, _, _, _.
  split; [reflexivity|]. split; [reflexivity|]. split; [reflexivity|].
  intros wr aln Hkeep Hplain. eexists. split.
  { unfold call. cbn [closure alignment world].
    rewrite RenameChromosomes_aln_fields. reflexivity. }
  cbn [fst RNAME heap header SQ withSQ]. rewrite renameField_other by done.
  split; [done|].
  unfold call in Hkeep. cbn [closure alignment] in Hkeep.
  rewrite ReplaceReferenceSequenceDictionary_aln_true in Hkeep.
  injection Hkeep as Hkeep. apply bool_decide_eq_true_1 in Hkeep.
  unfold names in *. apply list_elem_of_In, in_map_iff in Hkeep as (entry & Hname & Hin).
  apply list_elem_of_In, in_map_iff. exists entry. split; [|done].
  apply list_elem_of_In in Hin. rewrite <- Hname.
  by apply renameLoop_name; [| |apply Hsn].
Qed.

Lemma Replace_then_Rename_consistent_witness :
  exists w1 keep w2 rename,
    ReplaceReferenceSequenceDictionary [1%nat; 0%nat] plainWorld = Some (w1, Some keep) /\
    RenameChromosomes w1 = Some (w2, Some rename) /\
    decision keep w2 (read "X" []) = Some true /\
    exists aln',
      mutated rename w2 (read "X" []) = Some aln' /\
      RNAME aln' ∈ names (heap w2) (SQ (header w2)).
Proof.
  destruct (Replace_then_Rename_consistent plainWorld [1%nat; 0%nat])
    as (w1 & keep & w2 & rename & Hreplace & Hrename & _ & Hcall).
  - compute_done.
  - intros entry Hin. apply list_elem_of_In in Hin. simpl in Hin.
    destruct Hin as [<-|[<-|[]]]; by eexists.
  - exists w1, keep, w2, rename. split; [exact Hreplace|]. split; [exact Hrename|].
    assert (call (mkRecordState keep w2 (read "X" [])) =
            Some (true, mkRecordState keep w2 (read "X" []))) as Hkeep.
    { injection Hreplace as _ <-. reflexivity. }
    split; [unfold decision; by rewrite Hkeep|].
    destruct (Hcall w2 (read "X" []) Hkeep) as (aln' & Hc & _ & Hin); [split; discriminate|].
    exists aln'. split; [unfold mutated; by rewrite Hc | exact Hin].
Defined.

(** X22: in the other order the two filters drop everything.  When the
    new dictionary shares no map with the old SQ and none of its names
    starts with "chr", an alignment whose RNAME is not a sentinel is
    renamed by the filter of [RenameChromosomes] and then dropped by
    the filter of [ReplaceReferenceSequenceDictionary]. *)
Theorem Rename_then_Replace_drops (w : World) (dict : list nat) :
  (forall entry, entry ∈ dict -> entry ∉ SQ (header w)) ->
  (forall entry s, entry ∈ dict -> entryGet (heap w) entry "SN" <> "chr" +:+ s) ->
  exists w1 rename w2 keep,
    RenameChromosomes w = Some (w1, Some rename) /\
    ReplaceReferenceSequenceDictionary dict w1 = Some (w2, Some keep) /\
    forall (wr : World) (aln : Alignment),
      RNAME aln <> "*" /\ RNAME aln <> "=" ->
      exists aln',
        call (mkRecordState rename wr aln) = Some (true, mkRecordState rename wr aln') /\
        call (mkRecordState keep wr aln') = Some (false, mkRecordState keep wr aln').
Proof.
  intros Hdisjoint Hnames. eexists _, _, _, _.
  split; [reflexivity|]. split; [reflexivity|].
  intros wr aln Hplain. eexists. split.
  { unfold call. cbn [closure alignment world].
    rewrite RenameChromosomes_aln_fields. reflexivity. }
  cbn [fst]. unfold call. cbn [closure alignment heap].
  rewrite ReplaceReferenceSequenceDictionary_aln_true. cbn [RNAME].
  rewrite renameField_other by done.
  rewrite bool_decide_eq_false_2; [done|].
  unfold names. intros Hin. apply list_elem_of_In, in_map_iff in Hin as (entry & Hname & Hin).
  apply list_elem_of_In in Hin. apply (Hnames entry (RNAME aln) Hin).
  rewrite <- Hname. symmetry. apply entryGet_ext, renameLoop_untouched. by apply Hdisjoint.
Qed.

Lemma Rename_then_Replace_drops_witness :
  entryGet (heap separateDictWorld) 5%nat "SN" = "1" /\
  exists w1 rename w2 keep,
    RenameChromosomes separateDictWorld = Some (w1, Some rename) /\
    ReplaceReferenceSequenceDictionary [5%nat] w1 = Some (w2, Some keep) /\
    names (heap w2) (SQ (header w2)) = ["1"] /\
    decision keep w2 (read "1" []) = Some true /\
    exists aln',
      mutated rename w2 (read "1" []) = Some aln' /\
      RNAME aln' = "chr1" /\
      decision keep w2 aln' = Some false.
Proof.
  split; [reflexivity|].
  destruct (Rename_then_Replace_drops separateDictWorld [5%nat])
    as (w1 & rename & w2 & keep & Hrename & Hreplace & Hcall).
  - intros entry Hin. apply list_elem_of_In in Hin. simpl in Hin.
    destruct Hin as [<-|[]]. compute_done.
  - intros entry s Hin. apply list_elem_of_In in Hin. simpl in Hin.
    destruct Hin as [<-|[]]. discriminate.
  - exists w1, rename, w2, keep. split; [exact Hrename|]. split; [exact Hreplace|].
    destruct (Hcall w2 (read "1" [])) as (aln' & Hc1 & Hc2); [split; discriminate|].
    injection Hrename as <- <-. injection Hreplace as <- <-.
    split; [reflexivity|]. split; [reflexivity|].
    exists aln'. split; [unfold mutated; by rewrite Hc1|].
    split; [|unfold decision; by rewrite Hc2].
    vm_compute in Hc1. by injection Hc1 as <-.
Defined.

(** X23: dictionary replacement and indexing agree.  After
    [ReplaceReferenceSequenceDictionary] with at most 2^31 entries, the
    alignments its filter keeps are exactly those to which the filter
    of [AddREFID], built on the replaced header, gives an index other
    than -1. *)
Theorem Replace_then_AddREFID (w : World) (dict : list nat) :
  Z.of_nat (length dict) <= 2 ^ 31 ->
  exists w1 keep refid,
    ReplaceReferenceSequenceDictionary dict w = Some (w1, Some keep) /\
    AddREFID w1 = Some (w1, Some refid) /\
    forall (wr : World) (aln : Alignment),
      exists b value,
        call (mkRecordState keep wr aln) = Some (b, mkRecordState keep wr aln) /\
        call (mkRecordState refid wr aln) =
          Some (true, mkRecordState refid wr (SetREFID aln value)) /\
        (b = true <-> value <> -1).
Proof.
  intros Hlen. eexists _, _, _. split; [reflexivity|]. split; [reflexivity|].
  intros wr aln. eexists _, _. split; [reflexivity|]. split; [reflexivity|].
  cbn [alignment heap header SQ withSQ].
  rewrite ReplaceReferenceSequenceDictionary_aln_true, refidLoop_names.
  destruct (refidTable_last (names (heap w) dict) 0 ∅ (RNAME aln))
    as [[Hnotin Hlook]|(n & Hn & Hlook & _)]; rewrite Hlook.
  - rewrite lookup_empty, bool_decide_eq_false_2 by done. done.
  - assert (RNAME aln ∈ names (heap w) dict) as Hin by (by eapply list_elem_of_lookup_2).
    rewrite bool_decide_eq_true_2 by done.
    apply lookup_lt_Some in Hn. unfold names in Hn. rewrite length_map in Hn.
    rewrite int32_small by lia. split; [lia | done].
Qed.

Lemma Replace_then_AddREFID_witness :
  exists w1 keep refid,
    ReplaceReferenceSequenceDictionary [1%nat] sortedWorld = Some (w1, Some keep) /\
    AddREFID w1 = Some (w1, Some refid) /\
    decision keep w1 (read "chr1" []) = Some false /\
    mutated refid w1 (read "chr1" []) = Some (SetREFID (read "chr1" []) (-1)).
Proof.
  destruct (Replace_then_AddREFID sortedWorld [1%nat])
    as (w1 & keep & refid & Hreplace & Hrefid & Hcall); [simpl; lia|].
  exists w1, keep, refid. split; [exact Hreplace|]. split; [exact Hrefid|].
  destruct (Hcall w1 (read "chr1" [])) as (b & value & Hkeep & Hvalue & Hiff).
  unfold decision, mutated. rewrite Hkeep, Hvalue. cbn [alignment].
  assert (b = false) as Hb.
  { injection Hreplace as _ <-. vm_compute in Hkeep. by injection Hkeep as <-. }
  split; [by rewrite Hb|]. do 2 f_equal.
  destruct (decide (value = -1)) as [|Hne]; [done|].
  apply Hiff in Hne. congruence.
Defined.

(** ** The further properties at concrete inputs *)

Lemma FilterNonExactMappingReads_keeps_witness :
  exists f,
    FilterNonExactMappingReads sortedWorld = Some (sortedWorld, Some f) /\
    decision f sortedWorld (mkAlignment 0 1 "chr1" "=" "3S7M" [] 0) = Some true.
Proof.
  destruct (FilterNonExactMappingReads_keeps sortedWorld) as (f & Hrun & Hcall).
  exists f. split; [exact Hrun|].
  destruct (Hcall sortedWorld (mkAlignment 0 1 "chr1" "=" "3S7M" [] 0)) as (b & Hb & Hiff).
  unfold decision. rewrite Hb. f_equal. apply Hiff.
  intros c Hc Hset. apply list_elem_of_In in Hc, Hset. simpl in Hc, Hset.
  repeat (destruct Hc as [<-|Hc];
          [repeat (destruct Hset as [Hset|Hset]; [discriminate Hset|]); exact Hset|]).
  exact Hc.
Defined.

Lemma FilterDuplicateReads_excludes_witness :
  exists f,
    FilterDuplicateReads sortedWorld = Some (sortedWorld, Some f) /\
    decision f sortedWorld (mkAlignment 0x401 1 "chr1" "=" "10M" [] 0) = Some false.
Proof.
  destruct (FilterDuplicateReads_excludes sortedWorld) as (f & Hrun & Hcall).
  exists f. split; [exact Hrun|].
  destruct (Hcall sortedWorld (mkAlignment 0x401 1 "chr1" "=" "10M" [] 0)) as (b & Hb & Hiff).
  unfold decision. rewrite Hb. f_equal. apply Hiff. reflexivity.
Defined.

Lemma FilterOptionalReads_consumes_marker_witness :
  exists w' f,
    FilterOptionalReads
      (mkWorld ∅ (mkHeader ∅ [] [] [] {["@sr" := []; "@co" := [4%nat]]})) = Some (w', f) /\
    is_Some f /\
    UserRecords (header w') !! "@co" = Some [4%nat].
Proof.
  destruct (FilterOptionalReads_consumes_marker
              (mkWorld ∅ (mkHeader ∅ [] [] [] {["@sr" := []; "@co" := [4%nat]]})))
    as (w' & f & Hrun & Hsome & _ & Hother & _).
  exists w', f. split; [exact Hrun|]. split.
  - apply Hsome. by eexists.
  - rewrite Hother by discriminate. reflexivity.
Defined.



Lemma tailLoop_first_unreferenced_witness :
  tailLoop (heap chainWorld) (PG (header chainWorld)) (PG (header chainWorld)) =
    Some "sort" /\
  exists (n : nat) (entry : nat),
    PG (header chainWorld) !! n = Some entry /\
    entryGet (heap chainWorld) entry "ID" = "sort" /\
    ("sort" ∉ programPPs (heap chainWorld) (PG (header chainWorld))).
Proof.
  assert (tailLoop (heap chainWorld) (PG (header chainWorld)) (PG (header chainWorld)) =
          Some "sort") as Htail by reflexivity.
  split; [exact Htail|].
  pose proof (tailLoop_first_unreferenced (heap chainWorld) (PG (header chainWorld)))
    as Hfirst.
  rewrite Htail in Hfirst. destruct Hfirst as (n & entry & Hn & Hid & Hfree & _).
  exists n, entry. split; [exact Hn|]. split; [exact Hid | exact Hfree].
Defined.

Lemma AddPGLine_frame_witness :
  AddPGLine 9%nat [] chainWorld = None /\
  (collisionLoop (heap chainWorld) (PG (header chainWorld)) []
     (entryGet (heap chainWorld) 9%nat "ID") = None \/
   (is_Some (tailLoop (heap chainWorld) (PG (header chainWorld)) (PG (header chainWorld))) /\
    heap chainWorld !! 9%nat = None)).
Proof.
  assert (AddPGLine 9%nat [] chainWorld = None) as Hrun by reflexivity.
  split; [exact Hrun|].
  pose proof (AddPGLine_frame 9%nat [] chainWorld) as Hframe.
  rewrite Hrun in Hframe. exact Hframe.
Defined.

Lemma AddREFID_last_index_witness :
  exists f,
    AddREFID (mkWorld (heap refidWorld) (withSQ (header refidWorld) [0%nat; 1%nat; 0%nat])) =
      Some (mkWorld (heap refidWorld) (withSQ (header refidWorld) [0%nat; 1%nat; 0%nat]),
            Some f) /\
    exists value,
      mutated f refidWorld (read "chrA" []) = Some (SetREFID (read "chrA" []) value) /\
      (value = -1 \/ 0 <= value < 3).
Proof.
  destruct (AddREFID_last_index
              (mkWorld (heap refidWorld) (withSQ (header refidWorld) [0%nat; 1%nat; 0%nat])))
    as (f & Hrun & Hcall).
  exists f. split; [exact Hrun|].
  destruct (Hcall refidWorld (read "chrA" [])) as (value & Hc & _ & Hrange).
  exists value. split; [unfold mutated; by rewrite Hc|].
  apply Hrange. simpl. lia.
Defined.

Lemma FilterNonExactMappingReadsStrict_panics_witness :
  illTyped [(X0, VInt32 1); (X1, VString "0")] X1 /\
  call (mkRecordState FilterNonExactMappingReadsStrict_closure sortedWorld
          (read "chr1" [(X0, VInt32 1); (X1, VString "0")])) = None.
Proof.
  assert (illTyped [(X0, VInt32 1); (X1, VString "0")] X1) as Hill.
  { exists (VString "0"). split; [reflexivity | discriminate]. }
  split; [exact Hill|].
  apply (proj2 (FilterNonExactMappingReadsStrict_panics sortedWorld
                  (read "chr1" [(X0, VInt32 1); (X1, VString "0")]))).
  right. left. split; [reflexivity | exact Hill].
Defined.

(** ** The dictionary of a second file *)

(** X24: [ReplaceReferenceSequenceDictionaryFromSamFile] closes the
    file exactly when [Open] succeeded, after parsing; it returns a
    filter exactly when [Open] and [ParseHeader] succeeded, and that
    filter is [ReplaceReferenceSequenceDictionary] on the parsed SQ;
    the error it returns is the first of the errors of [Open],
    [ParseHeader] and [Close], so a failing [Close] after a successful
    parse gives a filter together with an error. *)
Theorem ReplaceReferenceSequenceDictionaryFromSamFile_results (samFile : SamFile) :
  match ReplaceReferenceSequenceDictionaryFromSamFile samFile with
  | (f, err, calls) =>
      (CallClose ∈ calls <-> openResult samFile = None) /\
      (openResult samFile = None -> calls = [CallOpen; CallParseHeader; CallClose]) /\
      (f = match openResult samFile, parseHeaderResult samFile with
           | None, inl sq => Some (ReplaceReferenceSequenceDictionary sq)
           | _, _ => None
           end) /\
      (err = match openResult samFile, parseHeaderResult samFile with
             | Some e, _ => Some e
             | None, inr e => Some e
             | None, inl _ => closeResult samFile
             end)
  end.
Proof.
  unfold ReplaceReferenceSequenceDictionaryFromSamFile.
  destruct (openResult samFile) as [e|].
  - split; [|done]. split; [|done].
    intros [?|?%elem_of_nil]%elem_of_cons; done.
  - destruct (parseHeaderResult samFile) as [sq|e].
    + split; [|done]. split; [done|]. intros _. apply list_elem_of_In. simpl. tauto.
    + split; [|done]. split; [done|]. intros _. apply list_elem_of_In. simpl. tauto.
Qed.

Lemma ReplaceReferenceSequenceDictionaryFromSamFile_results_witness :
  exists f,
    ReplaceReferenceSequenceDictionaryFromSamFile
      (mkSamFile None (inl [0%nat]) (Some "close failed")) =
    (Some f, Some "close failed", [CallOpen; CallParseHeader; CallClose]).
Proof.
  pose proof (ReplaceReferenceSequenceDictionaryFromSamFile_results
                (mkSamFile None (inl [0%nat]) (Some "close failed"))) as Hresults.
  destruct (ReplaceReferenceSequenceDictionaryFromSamFile
              (mkSamFile None (inl [0%nat]) (Some "close failed"))) as [[f err] calls].
  destruct Hresults as (_ & Hcalls & Hf & Herr).
  cbn [openResult parseHeaderResult closeResult] in *.
  rewrite (Hcalls eq_refl), Hf, Herr. by eexists.
Defined.

(** X25: when the ID of the record is already the ID of a record of
    PG, every run of [AddPGLine] that returns leaves two records with
    that ID in PG, whatever the draws: the ID found by the collision
    loop is not stored in the record. *)
Theorem AddPGLine_collision_keeps_duplicate (newPG : nat) (draws : list Z) (w w' : World)
    (f : option AlignmentFilter) :
  entryGet (heap w) newPG "ID" ∈ programIDs (heap w) (PG (header w)) ->
  AddPGLine newPG draws w = Some (w', f) ->
  programIDs (heap w') (PG (header w')) =
    programIDs (heap w) (PG (header w)) ++ [entryGet (heap w) newPG "ID"] /\
  ~ NoDup (programIDs (heap w') (PG (header w'))).
Proof.
  intros Hcollides Hrun.
  pose proof (AddPGLine_appends _ _ _ _ _ Hrun) as (_ & Hpg & Hid & Hother & _).
  assert (programIDs (heap w') (PG (header w')) =
          programIDs (heap w) (PG (header w)) ++ [entryGet (heap w) newPG "ID"]) as Hids.
  { rewrite Hpg. unfold programIDs. rewrite map_app. cbn [map]. rewrite Hid. f_equal.
    apply map_ext. intros entry. destruct (decide (entry = newPG)) as [->|Hne]; [done|].
    by apply entryGet_ext, Hother. }
  split; [done|]. rewrite Hids. intros Hnd. apply NoDup_app in Hnd as (_ & Hdisj & _).
  apply (Hdisj _ Hcollides). by left.
Qed.

Lemma AddPGLine_collision_keeps_duplicate_witness :
  exists w',
    AddPGLine 11%nat [0x1f] collidingWorld = Some (w', None) /\
    ~ NoDup (programIDs (heap w') (PG (header w'))).
Proof.
  assert (exists w', AddPGLine 11%nat [0x1f] collidingWorld = Some (w', None))
    as [w' Hrun] by (eexists; reflexivity).
  exists w'. split; [exact Hrun|].
  apply (AddPGLine_collision_keeps_duplicate 11%nat [0x1f] collidingWorld w' None).
  - compute_done.
  - exact Hrun.
Defined.
